(** * ei: entity sweeping (ei.go) and the accessor generator (cmd/accessor)

    A shallow embedding of the two Go sources of the repository:

    - [Ei]: the generic in-place compaction functions [Sweep] and
      [SweepEach] of package [ei], over the [Interface] of killable
      entities;
    - [Accessor]: the generator of getter and setter methods, with its tag
      grammar ([printAccessors]), its package qualifier ([qualifier]) and
      the rendering of the import block ([generate], [format]).

    Go strings are byte strings, modelled by [string]; a Go [map] is a
    [gmap]; a slice updated by index is a [list] with stdpp's lookup and
    insert, an index out of range being a run-time panic ([None]). *)

From Stdlib Require Import Ascii String.
From stdpp Require Import base option list gmap strings sorting pretty.


(* ===================================================================== *)
(** * Package ei *)
(* ===================================================================== *)

Module Ei.

(** [type Interface interface { Kill(); Alive() bool }].  The values of the
    element type [E] are references (the methods have pointer receivers);
    what they refer to lives in a store [H], which [Kill] updates and
    [Alive] reads. *)
Class Interface (H E : Type) := {
  Kill : E → H → H;
  Alive : E → H → bool
}.

(** [type Entity struct { dead bool }] *)
Record Entity := { dead : bool }.

(** A store of entities, addressed by the pointers [*Entity]. *)
Definition heap := nat → Entity.

Definition heap_set (l : nat) (e : Entity) (h : heap) : heap :=
  λ l', if decide (l' = l) then e else h l'.

(** [func (e *Entity) Kill() { e.dead = true }] and
    [func (e *Entity) Alive() bool { return !e.dead }] *)
#[export] Instance Entity_Interface : Interface heap nat := {
  Kill e h := heap_set e {| dead := true |} h;
  Alive e h := negb (dead (h e))
}.

(** [type EntityAtomic struct { dead atomic.Bool }]: in a sequential run
    [Store] and [Load] are a plain write and read of the flag. *)
Record EntityAtomic := { adead : bool }.

Definition aheap := nat → EntityAtomic.

#[export] Instance EntityAtomic_Interface : Interface aheap nat := {
  Kill e h := λ l', if decide (l' = e) then {| adead := true |} else h l';
  Alive e h := negb (adead (h e))
}.

(** A callback that keeps a log next to the store sees the same entities. *)
#[export] Instance Logged_Interface {H E L} `{Interface H E} :
  Interface (H * L) E := {
  Kill e w := (Kill e w.1, w.2);
  Alive e w := Alive e w.1
}.

Section Sweep.
Context {H E : Type} `{Interface H E}.

(** [for i := range n { body }] over a state, where an iteration may
    panic. *)
Fixpoint range_loop {St} (body : nat → St → option St)
    (idx : list nat) (st : St) : option St :=
  match idx with
  | [] => Some st
  | i :: idx => st' ← body i st; range_loop body idx st'
  end.

(** The indexed store [xs[j] = x] through the slice pointer panics out of
    range. *)
Definition store (arr : list E) (j : nat) (x : E) : option (list E) :=
  if decide (j < length arr) then Some (<[j:=x]> arr) else None.

(** One iteration of the loop of [Sweep]: the state is the backing
    array and [j]; [x] is read from the array at [i]. *)
Definition Sweep_body (h : H) (i : nat) (st : list E * nat)
    : option (list E * nat) :=
  let '(arr, j) := st in
  x ← arr !! i;
  if Alive x h then arr' ← store arr j x; Some (arr', S j)
  else Some (arr, j).

(** [func Sweep[E Interface, S ~[]E](xs ptr S)] *)
Definition Sweep (xs : list E) (h : H) : option (list E) :=
  '(arr, j) ← range_loop (Sweep_body h) (seq 0 (length xs)) (xs, 0);
  Some (take j arr).

(** One iteration of the loop of [SweepEach]: the callback runs after
    the element has been kept, and may change the store (it may kill
    entities); it is not given the slice. *)
Definition SweepEach_body (pred : nat → E → H → H) (i : nat)
    (st : list E * nat * H) : option (list E * nat * H) :=
  let '(arr, j, h) := st in
  x ← arr !! i;
  if Alive x h then arr' ← store arr j x; Some (arr', S j, pred i x h)
  else Some (arr, j, h).

(** [func SweepEach[E Interface, S ~[]E](xs ptr S, pred func(int, E))] *)
Definition SweepEach (xs : list E) (pred : nat → E → H → H) (h : H)
    : option (list E * H) :=
  '(arr, j, h') ← range_loop (SweepEach_body pred) (seq 0 (length xs)) (xs, 0, h);
  Some (take j arr, h').



(** What [SweepEach] is to do, said on lists: each element that is alive
    when its turn comes is kept, and the callback is called on it with
    its index; the result is the list of the calls and the store they
    leave. *)
Fixpoint each_calls (pred : nat → E → H → H) (i : nat) (xs : list E) (h : H)
    : list (nat * E) * H :=
  match xs with
  | [] => ([], h)
  | x :: xs =>
    if Alive x h then
      let '(calls, h') := each_calls pred (S i) xs (pred i x h) in
      ((i, x) :: calls, h')
    else each_calls pred (S i) xs h
  end.


(** What the loops have established before the iteration [i]: the first
    [j] cells hold the living elements among the first [i] ones, and the
    cells from [i] on are untouched. *)
Definition kept (h : H) (xs : list E) (i : nat) (arr : list E) (j : nat) : Prop :=
  length arr = length xs ∧ j ≤ i ∧
  take j arr = filter (λ x, Alive x h) (take i xs) ∧
  ∀ k, i ≤ k → arr !! k = xs !! k.

End Sweep.

(** A store in which the entity at address 1 is dead, and a callback that
    logs its calls next to the store. *)
Definition demo_heap : heap := λ l, {| dead := bool_decide (l = 1) |}.

Definition log_pred (i x : nat) (w : heap * list (nat * nat))
    : heap * list (nat * nat) :=
  (w.1, w.2 ++ [(i, x)]).



(** ** The backing array, the laws of the entities, and the maps *)

(** What [Kill] and [Alive] of an entity type are to each other: a killed
    entity is not alive, and the other entities are as they were. *)
Class InterfaceLaws (H E : Type) `{Interface H E} : Prop := {
  Alive_Kill : ∀ e h, Alive e (Kill e h) = false;
  Alive_Kill_ne : ∀ e e' h, e ≠ e' → Alive e' (Kill e h) = Alive e' h
}.

Section Cells.
Context {H E : Type} `{Interface H E}.

(** The loop of [Sweep] without the final reslicing: the backing array,
    whose length is the one of the slice before, and the new length. *)
Definition Sweep_cells (xs : list E) (h : H) : option (list E * nat) :=
  range_loop (Sweep_body h) (seq 0 (length xs)) (xs, 0).

(** A callback for [SweepEach] that kills the element it is given. *)
Definition kill_self (i : nat) (x : E) (h : H) : H := Kill x h.

End Cells.

Section Maps.
Context {H V K : Type} `{Interface H V} `{Countable K}.

(** One iteration of the loop of [SweepMap], for the key [k]: an entry
    that has been removed is not produced; the entry of [k] is removed
    when its value is not alive. *)
Definition SweepMap_body (h : H) (m : gmap K V) (k : K) : gmap K V :=
  match m !! k with
  | Some v => if Alive v h then m else delete k m
  | None => m
  end.

(** [func SweepMap[K comparable, V Interface, M ~map[K]V](m M)].  The
    order in which Go ranges over a map is not fixed: [order] is the order
    of the keys in this run. *)
Definition SweepMap (order : list K) (m : gmap K V) (h : H) : gmap K V :=
  foldl (SweepMap_body h) m order.



(** An order of the keys of a map: each key once. *)
Definition key_order (order : list K) (m : gmap K V) : Prop :=
  order ≡ₚ (map_to_list m).*1.


(** The entry of a key, when its value is alive. *)
Definition living (h : H) (o : option V) : option V :=
  v ← o; if Alive v h then Some v else None.

(** The calls [pred(k, v)] made for the entries of [calls], in order. *)
Definition run_map_calls (pred : K → V → H → H) (calls : list (K * V)) (h : H) : H :=
  foldl (λ w c, pred c.1 c.2 w) h calls.

End Maps.

(** A map of three entities, the one at address 1 under the key 10, and an
    order of its keys. *)
Definition demo_map : gmap nat nat := {[ 10 := 1; 20 := 2; 30 := 3 ]}.

Definition demo_order : list nat := reverse (map_to_list demo_map).*1.

End Ei.

(* ===================================================================== *)
(** * Command accessor *)
(* ===================================================================== *)

Module Accessor.

#[local] Open Scope string_scope.

(** ** Outcomes

    [log.Fatal] ends the process with a message; an index out of range is
    a run-time panic. *)
Inductive result (A : Type) : Type :=
| Ok (a : A)
| Fatal (msg : string)
| Panic.
Arguments Ok {A} a.
Arguments Fatal {A} msg.
Arguments Panic {A}.

#[export] Instance result_ret : MRet result := λ A a, Ok a.
#[export] Instance result_bind : MBind result := λ A B k m,
  match m with
  | Ok a => k a
  | Fatal msg => Fatal msg
  | Panic => Panic
  end.

(** ** Strings: the library functions the generator calls *)

(** The line feed and the tab of the format strings. *)
Definition LF : string := String "010" "".
Definition TAB : string := String "009" "".

(** [unicode.IsSpace], on the UTF-8 encodings of the white space
    characters: the six ASCII ones, U+0085 and U+00A0 (two bytes), and
    U+1680, U+2000 to U+200A, U+2028, U+2029, U+202F, U+205F and U+3000
    (three bytes). *)
Definition space1 (c : ascii) : bool := Ascii.is_space c.

Definition space2 (c1 c2 : ascii) : bool :=
  bool_decide (nat_of_ascii c1 = 194) &&
  (bool_decide (nat_of_ascii c2 = 133) || bool_decide (nat_of_ascii c2 = 160)).

Definition space3 (c1 c2 c3 : ascii) : bool :=
  let '(n1, n2, n3) := (nat_of_ascii c1, nat_of_ascii c2, nat_of_ascii c3) in
  bool_decide (n1 = 225 ∧ n2 = 154 ∧ n3 = 128) ||
  bool_decide (n1 = 226 ∧ n2 = 128 ∧
               ((128 ≤ n3 ≤ 138)%nat ∨ n3 = 168 ∨ n3 = 169 ∨ n3 = 175)) ||
  bool_decide (n1 = 226 ∧ n2 = 129 ∧ n3 = 159) ||
  bool_decide (n1 = 227 ∧ n2 = 128 ∧ n3 = 128).

(** Dropping the white space at the front of a string.  With [fwd] the
    string is read forwards; without it the string is a reversed one, and
    the bytes of a character come last byte first. *)
Fixpoint trim_front (fwd : bool) (s : string) : string :=
  match s with
  | "" => ""
  | String c1 r1 =>
    if space1 c1 then trim_front fwd r1 else
    match r1 with
    | "" => s
    | String c2 r2 =>
      if (if fwd then space2 c1 c2 else space2 c2 c1) then trim_front fwd r2 else
      match r2 with
      | "" => s
      | String c3 r3 =>
        if (if fwd then space3 c1 c2 c3 else space3 c3 c2 c1)
        then trim_front fwd r3 else s
      end
    end
  end.

(** [strings.TrimSpace] *)
Definition TrimSpace (s : string) : string :=
  String.rev (trim_front false (String.rev (trim_front true s))).

(** [strings.Split(s, ",")] *)
Fixpoint Split_from (cur s : string) : list string :=
  match s with
  | "" => [cur]
  | String c r =>
    if decide (c = ","%char) then cur :: Split_from "" r
    else Split_from (cur +:+ String c "") r
  end.

Definition Split (s : string) : list string := Split_from "" s.

(** [strings.Contains(s, ".")] *)
Fixpoint Contains_dot (s : string) : bool :=
  match s with
  | "" => false
  | String c r => bool_decide (c = "."%char) || Contains_dot r
  end.

(** [path.Base]: the last element of a slash-separated path, after the
    trailing slashes have been removed; ["."] for the empty path and ["/"]
    for a path of slashes only. *)
Fixpoint strip_slashes (s : string) : string :=
  match s with
  | "" => ""
  | String c r =>
    let r' := strip_slashes r in
    if decide (r' = "" ∧ c = "/"%char) then "" else String c r'
  end.

Fixpoint after_last_slash (cur s : string) : string :=
  match s with
  | "" => cur
  | String c r =>
    if decide (c = "/"%char) then after_last_slash "" r
    else after_last_slash (cur +:+ String c "") r
  end.

Definition Base (path : string) : string :=
  if decide (path = "") then "." else
  let path := after_last_slash "" (strip_slashes path) in
  if decide (path = "") then "/" else path.

(** [strconv.Itoa], for the counts of the registry, which never go below
    zero. *)
Definition Itoa (n : nat) : string := pretty n.

(** [sort.Strings]: the increasing order of byte strings.  There is one
    sorted arrangement of a list of strings ([sort_Strings_unique]), so
    the sorting algorithm does not matter. *)
Definition sort_Strings (l : list string) : list string :=
  merge_sort String.le l.

(** The functions of Go's library whose results the generator only passes
    on:
    - [Quote] is [strconv.Quote];
    - [Fprintf0 format] is what [fmt.Fprintf(w, format)] writes when it is
      called without operands;
    - [Source] is [format.Source] of go/format: the formatted bytes and
      the error, [None] for [nil]. *)
Class Lib := {
  Quote : string → string;
  Fprintf0 : string → string;
  Source : string → string * option string
}.

(** What the library's documentation and sources say of them: without a
    percent sign a format is written as it is, and [format.Source] returns
    [nil] bytes next to every error. *)
Fixpoint no_percent (s : string) : bool :=
  match s with
  | "" => true
  | String c r => negb (bool_decide (c = "%"%char)) && no_percent r
  end.

Class LibLaws `{Lib} : Prop := {
  Fprintf0_plain : ∀ s, no_percent s = true → Fprintf0 s = s;
  Quote_no_percent : ∀ s, no_percent s = true → no_percent (Quote s) = true;
  Source_error_nil : ∀ s b e, Source s = (b, Some e) → b = ""
}.

(** ** The loaded package *)

(** [types.Package]: an import path and the declared package name.  The
    loader has one package object for a path, so the comparison of two
    package pointers is the comparison of these records. *)
Record Package := { Path : string; Name : string }.

#[export] Instance Package_eq_dec : EqDecision Package.
Proof. solve_decision. Defined.

(** The types of go/types that [types.TypeString] prints: predeclared
    types, types declared in a package, pointers, slices and maps. *)
Inductive GoType :=
| Basic (name : string)
| Named (pkg : Package) (name : string)
| Pointer (elem : GoType)
| Slice (elem : GoType)
| Map (key elem : GoType).

(** [ast.Field] of a struct: the declared names, the type the checker
    gave the type expression ([TypesInfo.TypeOf]), and the tag.  [Tag] is
    [None] for a field without a tag; otherwise it holds what
    [reflect.StructTag.Get] returns at the key [accessor] for the unquoted
    tag literal, the empty string when the key is absent. *)
Record Field := {
  Names : list string;
  Type_ : GoType;
  Tag : option string
}.

(** [ast.TypeSpec]: [TypeParams] is [None] for a [nil] list, and has the
    names of each of its fields otherwise; the declared type is a struct
    or something else. *)
Inductive TypeExpr :=
| StructType (fields : list Field)
| OtherType.

Record TypeSpec := {
  SpecName : string;
  TypeParams : option (list (list string));
  SpecType : TypeExpr
}.

(** [ast.Decl]: a [GenDecl] with the token [TYPE] and its specs, or
    another declaration. *)
Inductive Decl :=
| TypeDecl (specs : list TypeSpec)
| OtherDecl.

(** [ast.File] *)
Record File := { Decls : list Decl }.

(** [packages.Package] *)
Record Pkg := {
  PkgName : string;
  Types : Package;
  Syntax : list File
}.

(** ** The generator *)

(** The buffer [g.w] points to. *)
Inductive writer := to_accessors | to_header.

(** [type generator struct] *)
Record generator := {
  w : writer;
  header : string;
  accessors : string;
  pkg : Pkg;
  pkgNameCounts : gmap string nat;
  pkgNames : gmap string string
}.

(** [type structField struct] *)
Record structField := {
  typeSpecName : string;
  typeSpecTypeParams : option (list (list string));
  name : string;
  typ : GoType;
  tag : option string
}.

Definition set_w (x : writer) (g : generator) : generator :=
  {| w := x; header := header g; accessors := accessors g; pkg := pkg g;
     pkgNameCounts := pkgNameCounts g; pkgNames := pkgNames g |}.

(** [g.printf] with a format whose verbs are all [%s] and with string
    operands writes the text [s] in which the operands have taken the place
    of the verbs. *)
Definition printf (s : string) (g : generator) : generator :=
  match w g with
  | to_accessors =>
    {| w := w g; header := header g; accessors := accessors g +:+ s;
       pkg := pkg g; pkgNameCounts := pkgNameCounts g; pkgNames := pkgNames g |}
  | to_header =>
    {| w := w g; header := header g +:+ s; accessors := accessors g;
       pkg := pkg g; pkgNameCounts := pkgNameCounts g; pkgNames := pkgNames g |}
  end.

(** [func (g *generator) qualifier(pkg *types.Package) string] *)
Definition qualifier (p : Package) (g : generator) : string * generator :=
  if decide (p = Types (pkg g)) then ("", g)
  else
    match pkgNames g !! Path p with
    | Some name => (name, g)
    | None =>
      let name := Name p in
      let count := default 0 (pkgNameCounts g !! name) in
      let name := if decide (0 < count) then name +:+ Itoa count else name in
      (name,
       {| w := w g; header := header g; accessors := accessors g; pkg := pkg g;
          pkgNameCounts :=
            <[Name p := S (default 0 (pkgNameCounts g !! Name p))]> (pkgNameCounts g);
          pkgNames := <[Path p := name]> (pkgNames g) |})
    end.

(** [types.TypeString(t, g.qualifier)]: the qualifier is asked for the
    package of every declared type, in the order of the text, and a
    non-empty answer is written before the name, with a dot. *)
Fixpoint TypeString (t : GoType) (g : generator) : string * generator :=
  match t with
  | Basic n => (n, g)
  | Named p n =>
    let '(q, g) := qualifier p g in
    ((if decide (q = "") then n else q +:+ "." +:+ n), g)
  | Pointer e =>
    let '(s, g) := TypeString e g in ("*" +:+ s, g)
  | Slice e =>
    let '(s, g) := TypeString e g in ("[]" +:+ s, g)
  | Map k e =>
    let '(sk, g) := TypeString k g in
    let '(se, g) := TypeString e g in
    ("map[" +:+ sk +:+ "]" +:+ se, g)
  end.

(** The four marker tokens of a tag. *)
Definition is_getter (arg : string) : bool :=
  bool_decide (arg = "get" ∨ arg = "Get").
Definition is_setter (arg : string) : bool :=
  bool_decide (arg = "set" ∨ arg = "Set").
Definition is_marker (arg : string) : bool := is_getter arg || is_setter arg.

(** The receiver: the name of the type, and its type parameters, each
    followed by a comma, in brackets. *)
Definition receiver (f : structField) : string :=
  match typeSpecTypeParams f with
  | None => typeSpecName f
  | Some params =>
    typeSpecName f +:+ "[" +:+
    foldl (λ recv param, foldl (λ recv n, recv +:+ n +:+ ",") recv param) "" params
    +:+ "]"
  end.

(** The loop that builds the method name from the tokens of the tag;
    [method] is the name found so far. *)
Fixpoint methodLoop (args : list string) (method : string) : result string :=
  match args with
  | [] => Ok method
  | arg :: args =>
    if is_marker arg then methodLoop args method
    else if decide (method ≠ "")
    then Fatal "error: cannot define multiple accessor names within a tag"
    else methodLoop args arg
  end.

(** The default of the method name: the name of the field, its first
    character put in upper case when it is one of [a] to [z].  Indexing
    the characters of an empty name panics.  A name is valid UTF-8, so the
    conversion to characters and back keeps its other bytes. *)
Definition upper (c : ascii) : ascii :=
  let n := nat_of_ascii c in
  if decide (97 ≤ n ≤ 122)%nat then ascii_of_nat (n - 32) else c.

Definition capitalize (s : string) : result string :=
  match s with
  | "" => Panic
  | String c r => Ok (String (upper c) r)
  end.

(** The texts of the two formats of [printGetter] and [printSetter]. *)
Definition getterText (recv method typ field : string) : string :=
  "func (x *" +:+ recv +:+ ") " +:+ method +:+ "() " +:+ typ +:+
  " { return x." +:+ field +:+ " }" +:+ LF.

Definition setterText (recv method typ field : string) : string :=
  "func (x *" +:+ recv +:+ ") " +:+ method +:+ "(value " +:+ typ +:+
  ") { x." +:+ field +:+ " = value }" +:+ LF.

(** [func (g *generator) printGetter(recv, method, typ, field string)] *)
Definition printGetter (recv method typ field : string) : generator → generator :=
  printf (getterText recv method typ field).

(** [func (g *generator) printSetter(recv, method, typ, field string)] *)
Definition printSetter (recv method typ field : string) : generator → generator :=
  printf (setterText recv method typ field).

(** The loop that prints the accessors of the tokens of the tag. *)
Definition printLoop (recv method typ field : string) (args : list string)
    (g : generator) : generator :=
  foldl (λ g arg,
    if is_getter arg then printGetter recv (arg +:+ method) typ field g
    else if is_setter arg then printSetter recv (arg +:+ method) typ field g
    else g) g args.

(** The text of the format of the comment. *)
Definition commentText (recv field tag : string) : string :=
  "// " +:+ recv +:+ "." +:+ field +:+ ": " +:+ tag +:+ LF.

(** [func (g *generator) printAccessors(f *structField)] *)
Definition printAccessors (f : structField) (g : generator) : result generator :=
  match tag f with
  | None => Ok g
  | Some t =>
    let tag := TrimSpace t in
    if decide (tag = "") then Ok g else
    let args := Split tag in
    if decide (length args = 0) then Ok g else
    let recv := receiver f in
    method ← methodLoop args "";
    method ← (if decide (method = "") then capitalize (name f) else Ok method);
    let '(typ, g) := TypeString (typ f) g in
    let field := name f in
    let g := printf (commentText recv field tag) g in
    Ok (printLoop recv method typ field args g)
  end.

(** The lines of a group, one after the other. *)
Definition joined (lines : list string) : string :=
  foldr String.append "" lines.

(** A loop over a slice whose body may end the process. *)
Fixpoint forM {A} (body : A → generator → result generator) (l : list A)
    (g : generator) : result generator :=
  match l with
  | [] => Ok g
  | x :: l => g' ← body x g; forM body l g'
  end.

(** The descriptor [generate] builds for a name of a field. *)
Definition descriptor (tspec : TypeSpec) (field : Field) (n : string) : structField :=
  {| typeSpecName := SpecName tspec;
     typeSpecTypeParams := TypeParams tspec;
     name := n;
     typ := Type_ field;
     tag := Tag field |}.

(** The loops of [generate] over the files, their top-level type
    declarations, the struct types among them, their fields and the names
    of each field. *)
Definition scanSpec (tspec : TypeSpec) : generator → result generator :=
  match SpecType tspec with
  | StructType fields =>
    forM (λ field,
      forM (λ n, printAccessors (descriptor tspec field n)) (Names field)) fields
  | OtherType => Ok
  end.

Definition scanDecl (decl : Decl) : generator → result generator :=
  match decl with
  | TypeDecl specs => forM scanSpec specs
  | OtherDecl => Ok
  end.

Definition scanFiles (files : list File) : generator → result generator :=
  forM (λ file, forM scanDecl (Decls file)) files.

Section WithLib.
Context `{Lib}.

(** The import statement of a recorded package: the name is left out
    when it is the base of the path. *)
Definition importStmt (pkgPath rename : string) : string :=
  let rename := if decide (rename = Base pkgPath) then "" else rename in
  TAB +:+ rename +:+ " " +:+ Quote pkgPath +:+ LF.

(** The loop over [g.pkgNames], in the order [entries] in which the map
    is ranged over: the two lists of statements. *)
Definition importLoop (entries : list (string * string))
    : list string * list string :=
  foldl (λ (acc : list string * list string) (entry : string * string),
    let '(stdImports, extImports) := acc in
    let '(pkgPath, rename) := entry in
    let stmt := importStmt pkgPath rename in
    if Contains_dot pkgPath then (stdImports, (extImports ++ [stmt])%list)
    else ((stdImports ++ [stmt])%list, extImports)) ([], []) entries.

(** The statements are printed as formats, without operands. *)
Definition printStmts (stmts : list string) (g : generator) : generator :=
  foldl (λ g stmt, printf (Fprintf0 stmt) g) g stmts.

(** The second half of [generate]: the header. *)
Definition generateHeader (entries : list (string * string)) (g : generator)
    : generator :=
  let g := set_w to_header g in
  let g := printf ("// Code generated by accessor; DO NOT EDIT." +:+ LF) g in
  let g := printf LF g in
  let g := printf ("package " +:+ PkgName (pkg g)) g in
  let g := printf LF g in
  let '(stdImports, extImports) := importLoop entries in
  let stdImports := sort_Strings stdImports in
  let extImports := sort_Strings extImports in
  let g := printf ("import (" +:+ LF) g in
  let g := printStmts stdImports g in
  let g := printf LF g in
  let g := printStmts extImports g in
  printf (")" +:+ LF) g.

(** [func (g *generator) generate()].  The order in which Go ranges over
    a map is not fixed: [range] stands for the order of this run. *)
Definition generate (range : gmap string string → list (string * string))
    (g : generator) : result generator :=
  let g := set_w to_accessors g in
  g ← scanFiles (Syntax (pkg g)) g;
  Ok (generateHeader (range (pkgNames g)) g).

(** [func (g *generator) format() []byte]: what is printed on the
    standard output, and the formatted source or the fatal error. *)
Definition format (g : generator) : string * result string :=
  match Source (header g +:+ accessors g) with
  | (src, Some err) => (src +:+ LF, Fatal ("error: format: " +:+ err))
  | (src, None) => ("", Ok src)
  end.

(** How a run of [main] ends once the packages are loaded: with the call
    of [os.WriteFile] on the formatted source, with a fatal error after
    some output, or with a panic. *)
Inductive outcome :=
| WriteFile (src : string)
| Exit (stdout : string) (msg : string)
| Crash.

(** [func main()], from the check of the loaded packages on. *)
Definition main (range : gmap string string → list (string * string))
    (pkgs : list Pkg) : outcome :=
  match pkgs with
  | [p] =>
    let g := {| w := to_accessors; header := ""; accessors := ""; pkg := p;
                pkgNameCounts := ∅; pkgNames := ∅ |} in
    match generate range g with
    | Ok g =>
      match format g with
      | (_, Ok src) => WriteFile src
      | (out, Fatal msg) => Exit out msg
      | (_, Panic) => Crash
      end
    | Fatal msg => Exit "" msg
    | Panic => Crash
    end
  | _ => Exit "" ("error: " +:+ Itoa (length pkgs) +:+ " packages found")
  end.

End WithLib.

(** The import statement of an entry of the registry. *)
Definition stmtOf `{Lib} (e : string * string) : string := importStmt e.1 e.2.

(** The text of the import block made of the lines of the two groups. *)
Definition importBlock (std ext : list string) : string :=
  "import (" +:+ LF +:+ joined std +:+ LF +:+ joined ext +:+ ")" +:+ LF.

(** An order of ranging over a map goes through each entry once. *)
Definition range_order (range : gmap string string → list (string * string)) : Prop :=
  ∀ m, range m ≡ₚ map_to_list m.

(** ** Notions the properties are stated with *)

(** The message of the fatal error of [printAccessors]. *)
Definition multiple_names : string :=
  "error: cannot define multiple accessor names within a tag".

(** The tokens of a tag that are not markers, and those among them that
    are not empty. *)
Definition names_of (args : list string) : list string :=
  filter (λ a, is_marker a = false) args.

Definition given_names (args : list string) : list string :=
  filter (λ a, is_marker a = false ∧ a ≠ "") args.

(** A token that is not a marker comes after one that is neither a marker
    nor empty. *)
Definition name_clash (args : list string) : Prop :=
  ∃ l1 a l2 b l3, args = (l1 ++ a :: l2 ++ b :: l3)%list ∧
    is_marker a = false ∧ a ≠ "" ∧ is_marker b = false.

(** The state of the loop of the method name when [m] is the name found so
    far: a clash with [m], or a clash to come. *)
Definition clash_from (m : string) (args : list string) : Prop :=
  (m ≠ "" ∧ ∃ b, b ∈ args ∧ is_marker b = false) ∨ name_clash args.

(** The text of the accessors of the markers of a tag, in the order of
    the tokens. *)
Definition accessorsText (recv method typ field : string) (args : list string)
    : string :=
  foldr (λ arg rest,
    (if is_getter arg then getterText recv (arg +:+ method) typ field
     else if is_setter arg then setterText recv (arg +:+ method) typ field
     else "") +:+ rest) "" args.

(** The generator after [txt] has been written to the buffer of the
    accessors. *)
Definition emit (txt : string) (g : generator) : generator :=
  {| w := w g; header := header g; accessors := accessors g +:+ txt;
     pkg := pkg g; pkgNameCounts := pkgNameCounts g; pkgNames := pkgNames g |}.

(** The method name [printAccessors] uses once the loop has found [m]. *)
Definition methodDefault (f : structField) (m : string) : result string :=
  if decide (m = "") then capitalize (name f) else Ok m.

(** The qualifier asked for the packages of [qs], one after the other. *)
Definition qualify_all (qs : list Package) (g : generator) : generator :=
  foldl (λ g q, (qualifier q g).2) g qs.

(** The descriptors of the fields of the files, in the order of their
    declaration. *)
Definition specFields (tspec : TypeSpec) : list structField :=
  match SpecType tspec with
  | StructType fields =>
    field ← fields; descriptor tspec field <$> Names field
  | OtherType => []
  end.

Definition declFields (decl : Decl) : list structField :=
  match decl with
  | TypeDecl specs => specs ≫= specFields
  | OtherDecl => []
  end.

Definition allFields (files : list File) : list structField :=
  file ← files; Decls file ≫= declFields.

(** The generator after [txt] has been written to the buffer of the
    header. *)
Definition emitH (txt : string) (g : generator) : generator :=
  {| w := w g; header := header g +:+ txt; accessors := accessors g;
     pkg := pkg g; pkgNameCounts := pkgNameCounts g; pkgNames := pkgNames g |}.

(** The recorded packages of the two groups: those without a dot in the
    path, and those with one. *)
Definition stdEntries (entries : list (string * string)) : list (string * string) :=
  filter (λ e, Contains_dot e.1 = false) entries.

Definition extEntries (entries : list (string * string)) : list (string * string) :=
  filter (λ e, Contains_dot e.1 = true) entries.

(** The first lines of the header. *)
Definition preamble (p : Pkg) : string :=
  "// Code generated by accessor; DO NOT EDIT." +:+ LF +:+ LF +:+
  "package " +:+ PkgName p +:+ LF.

(** The generator [main] starts with. *)
Definition new_generator (p : Pkg) : generator :=
  {| w := to_accessors; header := ""; accessors := ""; pkg := p;
     pkgNameCounts := ∅; pkgNames := ∅ |}.

(** ** A library for examples

    Texts without a quote, a backslash or a character that is not
    printable are quoted by putting them in quotes; a format in which
    each percent sign is directly followed by its verb (no flags, width
    or precision) is written with a note for each verb, as there are no
    operands; the formatter accepts the texts [valid] accepts, and leaves
    them as they are. *)
Fixpoint model_Fprintf0 (s : string) : string :=
  match s with
  | "" => ""
  | String c r =>
    if decide (c = "%"%char) then
      match r with
      | "" => "%!(NOVERB)"
      | String v r' =>
        if decide (v = "%"%char) then String "%" (model_Fprintf0 r')
        else "%!" +:+ String v "(MISSING)" +:+ model_Fprintf0 r'
      end
    else String c (model_Fprintf0 r)
  end.

Definition model_lib (valid : string → bool) : Lib := {|
  Quote s := String "034" s +:+ String "034" "";
  Fprintf0 := model_Fprintf0;
  Source s := if valid s then (s, None) else ("", Some "expected declaration")
|}.

(** ** Packages and fields for examples *)

Definition app : Package := {| Path := "example.com/app"; Name := "app" |}.
Definition util_a : Package := {| Path := "a/util"; Name := "util" |}.
Definition util_b : Package := {| Path := "b/util"; Name := "util" |}.
Definition util1_c : Package := {| Path := "c/util1"; Name := "util1" |}.
Definition util_x : Package := {| Path := "github.com/x/util"; Name := "util" |}.

Definition field_of (n : string) (t : GoType) (tg : string) : structField :=
  {| typeSpecName := "User"; typeSpecTypeParams := None; name := n;
     typ := t; tag := Some tg |}.

Definition struct_of (fields : list Field) : Pkg :=
  {| PkgName := "app"; Types := app;
     Syntax := [ {| Decls := [ OtherDecl;
       TypeDecl [ {| SpecName := "User"; TypeParams := None;
                     SpecType := StructType fields |} ] ] |} ] |}.

Definition app_pkg : Pkg := struct_of [].

(** A struct whose fields refer to three packages, two of them named
    [util] and the third named [util1]. *)
Definition collision_pkg : Pkg := struct_of [
  {| Names := ["a"]; Type_ := Named util_a "T"; Tag := Some "get" |};
  {| Names := ["b"]; Type_ := Named util_b "T"; Tag := Some "get" |};
  {| Names := ["c"]; Type_ := Named util1_c "T"; Tag := Some "get" |} ].

(** A struct with fields of a package of the standard library and of two
    packages named [util]. *)
Definition imports_pkg : Pkg := struct_of [
  {| Names := ["a"; "b"]; Type_ := Named util_a "T"; Tag := Some "get" |};
  {| Names := ["c"]; Type_ := Named util_x "T"; Tag := Some "set,Cee" |};
  {| Names := ["d"]; Type_ := Named {| Path := "fmt"; Name := "fmt" |} "Stringer";
     Tag := Some "Get" |} ].

(** A struct with a tag that has an empty token before its name token. *)
Definition empty_token_pkg : Pkg := struct_of [
  {| Names := ["a"]; Type_ := Basic "int"; Tag := Some "get,,Foo" |} ].

(** A struct with a tag whose name token has a space in it. *)
Definition invalid_pkg : Pkg := struct_of [
  {| Names := ["a"]; Type_ := Basic "int"; Tag := Some "get,a b" |} ].

(** Two orders of ranging over a map. *)
Definition range_fwd (m : gmap string string) : list (string * string) :=
  map_to_list m.
Definition range_bwd (m : gmap string string) : list (string * string) :=
  reverse (map_to_list m).

(** ** Notions of further properties *)

(** The packages of the declared types of a type, in the order in which
    [types.TypeString] asks the qualifier for them. *)
Fixpoint pkgs_of (t : GoType) : list Package :=
  match t with
  | Basic _ => []
  | Named p _ => [p]
  | Pointer e | Slice e => pkgs_of e
  | Map k e => (pkgs_of k ++ pkgs_of e)%list
  end.

(** The text of a type when the short names of the packages are read in a
    registry [names], the types of the package [own] having no prefix. *)
Fixpoint render (names : gmap string string) (own : Package) (t : GoType) : string :=
  match t with
  | Basic n => n
  | Named p n =>
    if decide (p = own) then n else
    let q := default "" (names !! Path p) in
    if decide (q = "") then n else q +:+ "." +:+ n
  | Pointer e => "*" +:+ render names own e
  | Slice e => "[]" +:+ render names own e
  | Map k e => "map[" +:+ render names own k +:+ "]" +:+ render names own e
  end.

(** The count of a declared name in the registry, zero for a name that
    has none, and the short name made of a declared name and a count. *)
Definition count_of (g : generator) (declared : string) : nat :=
  default 0 (pkgNameCounts g !! declared).

Definition suffixed (declared : string) (k : nat) : string :=
  if decide (0 < k)%nat then declared +:+ Itoa k else declared.

(** What a generator has written and recorded is kept by what follows:
    the text of the accessors is extended, the header and the package are
    the same, the names that are recorded stay, and no count goes down. *)
Definition extends (g g' : generator) : Prop :=
  (∃ txt, accessors g' = accessors g +:+ txt) ∧
  header g' = header g ∧ pkg g' = pkg g ∧ w g' = w g ∧
  pkgNames g ⊆ pkgNames g' ∧
  ∀ declared, (count_of g declared ≤ count_of g' declared)%nat.

(** The decimal digits, the strings made of them, and the strings whose
    last character is one. *)
Definition is_digit (c : ascii) : bool :=
  bool_decide (48 ≤ nat_of_ascii c ≤ 57)%nat.

Fixpoint all_digits (s : string) : bool :=
  match s with
  | "" => true
  | String c r => is_digit c && all_digits r
  end.

Fixpoint ends_in_digit (s : string) : bool :=
  match s with
  | "" => false
  | String c "" => is_digit c
  | String _ r => ends_in_digit r
  end.

(** The digits of a count in a short name: none for the count zero. *)
Definition count_digits (k : nat) : string :=
  if decide (0 < k)%nat then Itoa k else "".

(** The recorded names are made of the declared names of their paths and
    of counts below those of the registry, and two paths with the same
    declared name have different counts; [declared] gives the declared
    name of a path. *)
Definition indexed_names (declared : string → string) (g : generator) : Prop :=
  ∃ idx : string → nat,
    (∀ path n, pkgNames g !! path = Some n →
       (idx path < count_of g (declared path))%nat ∧
       n = suffixed (declared path) (idx path)) ∧
    (∀ path1 path2,
       is_Some (pkgNames g !! path1) → is_Some (pkgNames g !! path2) →
       declared path1 = declared path2 → idx path1 = idx path2 →
       path1 = path2).

(** A field without a tag, or with a tag that is empty once trimmed. *)
Definition untagged (f : structField) : Prop :=
  match tag f with
  | None => True
  | Some t => TrimSpace t = ""
  end.

(** A struct with a field whose tag has a name and no marker. *)
Definition no_marker_pkg : Pkg := struct_of [
  {| Names := ["a"]; Type_ := Pointer (Named util_a "T"); Tag := Some "Foo" |} ].

(** A struct with fields without tags, and fields with blank tags. *)
Definition untagged_pkg : Pkg := struct_of [
  {| Names := ["a"; "b"]; Type_ := Named util_a "T"; Tag := None |};
  {| Names := ["c"]; Type_ := Basic "int"; Tag := Some "  " |} ].

(** The declared names of the paths of the examples. *)
Definition demo_declared (path : string) : string :=
  if decide (path = "c/util1") then "util1" else
  if decide (path = "fmt") then "fmt" else "util".

(** ** The command line

    What [main] does before the packages are loaded and after the source
    is formatted.  The flags have been parsed: [output] and [buildTags]
    are the values of the two flags, and [args] the other arguments. *)

(** The file system and the loader:
    - [Stat name] is the error of [os.Stat], or whether the file is a
      directory;
    - [Dir] and [JoinPath] are [filepath.Dir] and [filepath.Join];
    - [Load flag patterns] is [packages.Load] with the build flag [flag]:
      its error or the packages;
    - [WriteErr file src] is the error of [os.WriteFile], if any. *)
Class Sys := {
  Stat : string → string + bool;
  Dir : string → string;
  JoinPath : string → string → string;
  Load : string → list string → string + list Pkg;
  WriteErr : string → string → option string
}.

(** [strings.Join(elems, " ")] *)
Fixpoint Join_space (elems : list string) : string :=
  match elems with
  | [] => ""
  | [e] => e
  | e :: elems => e +:+ " " +:+ Join_space elems
  end.

(** How a run of the command ends: the file is written, or the process
    exits with a fatal error after some output, or it panics. *)
Inductive run_end :=
| Written (file src : string)
| Failed (stdout msg : string)
| Crashed.

(** The message of the fatal error of the tags. *)
Definition tags_with_files : string :=
  "-tags option applies only to directories, not when files are specified".

Section CommandLine.
Context `{Lib} `{Sys}.

(** The tags of the flag. *)
Definition tags_of (buildTags : string) : list string :=
  if decide (0 < String.length buildTags)%nat then Split buildTags else [].

(** The arguments, the current directory when there is none. *)
Definition args_of (args : list string) : list string :=
  if decide (length args = 0) then ["."] else args.

(** The directory of the output, or the fatal error of [isDirectory] or
    of the tags. *)
Definition outputDir_of (tags args : list string) : result string :=
  let files :=
    if decide (length tags ≠ 0) then Fatal tags_with_files
    else match args with
         | a :: _ => Ok (Dir a)
         | [] => Panic
         end in
  match args with
  | [a] =>
    match Stat a with
    | inl err => Fatal err
    | inr true => Ok a
    | inr false => files
    end
  | _ => files
  end.

(** The build flag of the configuration of the loader. *)
Definition buildFlag (tags : list string) : string :=
  "-tags=" +:+ Join_space tags.

(** [func main()] *)
Definition main_cli (range : gmap string string → list (string * string))
    (output buildTags : string) (args : list string) : run_end :=
  let tags := tags_of buildTags in
  let args := args_of args in
  match outputDir_of tags args with
  | Ok outputDir =>
    match Load (buildFlag tags) args with
    | inl err => Failed "" err
    | inr pkgs =>
      match main range pkgs with
      | WriteFile src =>
        let outputName := if decide (output = "") then "accessor.go" else output in
        let outputFile := JoinPath outputDir outputName in
        match WriteErr outputFile src with
        | Some err => Failed "" ("writing outputFile: " +:+ err)
        | None => Written outputFile src
        end
      | Exit out msg => Failed out msg
      | Crash => Crashed
      end
    end
  | Fatal msg => Failed "" msg
  | Panic => Crashed
  end.

End CommandLine.

(** A text in which the commas are replaced by spaces. *)
Fixpoint commas_to_spaces (s : string) : string :=
  match s with
  | "" => ""
  | String c r =>
    String (if decide (c = ","%char) then " "%char else c) (commas_to_spaces r)
  end.

(** A file system with the directory [pkg] and no other file, and a loader
    that finds the package of the examples there. *)
Definition demo_sys : Sys := {|
  Stat name := if decide (name = "pkg") then inr true
               else if decide (name = "pkg/user.go") then inr false
               else inl ("stat " +:+ name +:+ ": no such file or directory");
  Dir name := "pkg";
  JoinPath dir name := dir +:+ "/" +:+ name;
  Load flag patterns := inr [imports_pkg];
  WriteErr file src := None
|}.

End Accessor.

(* ===================================================================== *)
(** * Properties of package ei *)
(* ===================================================================== *)

Import Ei.

Section SweepProofs.
Context {H E : Type} `{Interface H E}.
Implicit Types (xs arr : list E) (h : H).
Lemma kept_init h xs : kept h xs 0 xs 0.
Proof. repeat split; auto. Qed.

Lemma kept_lookup h xs i arr j :
  kept h xs i arr j → i < length xs → ∃ x, arr !! i = Some x ∧ xs !! i = Some x.
Proof.
  intros (_ & _ & _ & Hk) Hi.
  destruct (lookup_lt_is_Some_2 xs i Hi) as [x Hx].
  exists x. by rewrite Hk.
Qed.

Lemma kept_skip h xs i arr j x :
  kept h xs i arr j → xs !! i = Some x → Alive x h = false →
  kept h xs (S i) arr j.
Proof.
  intros (Hlen & Hj & Htake & Hk) Hx Hdead. repeat split; auto with lia.
  rewrite (take_S_r _ _ _ Hx), filter_app, Htake.
  rewrite (filter_cons_False _ x); [by rewrite filter_nil, app_nil_r|].
  rewrite Hdead. intros [].
Qed.

Lemma kept_keep h xs i arr j x :
  kept h xs i arr j → xs !! i = Some x → Alive x h = true →
  j < length arr ∧ kept h xs (S i) (<[j:=x]> arr) (S j).
Proof.
  intros (Hlen & Hj & Htake & Hk) Hx Halive.
  assert (i < length xs) by (by eapply lookup_lt_Some).
  split; [lia|]. repeat split.
  - by rewrite length_insert.
  - lia.
  - rewrite (take_S_r _ _ x) by (apply list_lookup_insert_eq; lia).
    rewrite take_insert_ge by lia.
    rewrite (take_S_r _ _ _ Hx), filter_app, Htake.
    rewrite (filter_cons_True _ x); [by rewrite filter_nil|].
    by rewrite Halive.
  - intros k Hik. rewrite list_lookup_insert_ne by lia. apply Hk. lia.
Qed.

Lemma kept_end h xs arr j :
  kept h xs (length xs) arr j → take j arr = filter (λ x, Alive x h) xs.
Proof. intros (_ & _ & Htake & _). by rewrite Htake, take_ge. Qed.

Lemma Sweep_loop h xs n : ∀ i arr j,
  i + n = length xs → kept h xs i arr j →
  ∃ arr' j', range_loop (Sweep_body h) (seq i n) (arr, j) = Some (arr', j')
             ∧ kept h xs (i + n) arr' j'.
Proof.
  induction n as [|n IH]; intros i arr j Hn Hinv; simpl.
  - exists arr, j. by rewrite Nat.add_0_r.
  - destruct (kept_lookup _ _ _ _ _ Hinv) as (x & Harr & Hxs); [lia|].
    rewrite Harr; simpl. destruct (Alive x h) eqn:Hal.
    + destruct (kept_keep _ _ _ _ _ _ Hinv Hxs Hal) as [Hj Hinv'].
      unfold store. rewrite decide_True by done. simpl.
      destruct (IH (S i) (<[j:=x]> arr) (S j)) as (arr' & j' & -> & ?);
        [lia|done|].
      exists arr', j'. by replace (i + S n) with (S i + n) by lia.
    + simpl. destruct (IH (S i) arr j) as (arr' & j' & -> & ?);
        [lia|by eapply kept_skip|].
      exists arr', j'. by replace (i + S n) with (S i + n) by lia.
Qed.

Lemma Sweep_filter xs h : Sweep xs h = Some (filter (λ x, Alive x h) xs).
Proof.
  unfold Sweep.
  destruct (Sweep_loop h xs (length xs) 0 xs 0) as (arr & j & -> & Hinv);
    [done|apply kept_init|].
  simpl. f_equal. by apply kept_end.
Qed.

Lemma length_filter_complement (P : E → Prop) `{∀ x, Decision (P x)} xs :
  length (filter P xs) + length (filter (λ x, ¬ P x) xs) = length xs.
Proof. by rewrite <-length_app, filter_app_complement. Qed.

(** [C9] After [Sweep] the slice holds the elements of the original
    slice for which [Alive] answers true, and only those, in their
    original order; the loop never indexes out of range, and the length
    has gone down by the number of elements that are not alive. *)
Theorem C9_Sweep_stable_filter (xs : list E) (h : H) :
  ∃ ys, Sweep xs h = Some ys ∧
        ys = filter (λ x, Alive x h) xs ∧
        ys `sublist_of` xs ∧
        (∀ x, x ∈ ys ↔ x ∈ xs ∧ Alive x h = true) ∧
        length ys + length (filter (λ x, ¬ Alive x h) xs) = length xs.
Proof.
  exists (filter (λ x, Alive x h) xs). split; [apply Sweep_filter|].
  split; [done|]. split; [apply sublist_filter|]. split.
  - intros x. rewrite list_elem_of_filter, Is_true_true. tauto.
  - apply length_filter_complement.
Qed.

(** ** SweepEach *)

Section Each.
Variable pred : nat → E → H → H.



(** The loop of [SweepEach] from the iteration [i] on, when the cells from
    [i] on hold [suf]: the cells before [j] are kept, and the elements of
    the calls are put after them. *)
Lemma SweepEach_loop suf : ∀ i arr j h,
  drop i arr = suf → j ≤ i →
  ∃ arr' j',
    range_loop (SweepEach_body pred) (seq i (length suf)) (arr, j, h) =
      Some (arr', j', (each_calls pred i suf h).2) ∧
    take j' arr' = take j arr ++ (each_calls pred i suf h).1.*2.
Proof.
  induction suf as [|x suf IH]; intros i arr j h Hdrop Hj; simpl.
  { exists arr, j. by rewrite app_nil_r. }
  assert (arr !! i = Some x) as Hx.
  { rewrite <-(Nat.add_0_r i), <-lookup_drop. by rewrite Hdrop. }
  assert (drop (S i) arr = suf) as Hdrop'.
  { rewrite (drop_S _ _ _ Hx) in Hdrop. by injection Hdrop. }
  assert (i < length arr) as Hi by (by eapply lookup_lt_Some).
  rewrite Hx; simpl. destruct (Alive x h).
  - unfold store. rewrite decide_True by lia. simpl.
    destruct (IH (S i) (<[j:=x]> arr) (S j) (pred i x h)) as (arr' & j' & -> & Ht);
      [by rewrite drop_insert_lt by lia|lia|].
    destruct (each_calls pred (S i) suf (pred i x h)) as [calls h'].
    exists arr', j'. split; [done|]. rewrite Ht. simpl.
    rewrite (take_S_r _ _ x) by (apply list_lookup_insert_eq; lia).
    rewrite take_insert_ge by lia. by rewrite <-app_assoc.
  - simpl. apply IH; [done|lia].
Qed.

Lemma SweepEach_each_calls xs h :
  SweepEach xs pred h =
  Some ((each_calls pred 0 xs h).1.*2, (each_calls pred 0 xs h).2).
Proof.
  unfold SweepEach.
  destruct (SweepEach_loop xs 0 xs 0 h) as (arr & j & -> & Ht); [done..|].
  simpl. by rewrite Ht.
Qed.

Hypothesis pred_stable : ∀ i x w y, Alive y (pred i x w) = Alive y w.


End Each.




End SweepProofs.

(** The callback is called with the indices 1 and 3 of the slice before
    the compaction, not with the indices 0 and 1 of the result. *)
Example SweepEach_demo :
  Ei.SweepEach [1; 2; 1; 3] Ei.log_pred (Ei.demo_heap, []) =
  Some ([2; 3], (Ei.demo_heap, [(1, 2); (3, 3)])).
Proof. reflexivity. Qed.



(* ===================================================================== *)
(** * Properties of the accessor generator *)
(* ===================================================================== *)

Import Accessor.
#[local] Open Scope string_scope.
#[local] Open Scope nat_scope.

(** ** The tag grammar *)

Section TagGrammar.
Implicit Types (args : list string) (m arg : string).

Lemma name_clash_nil : ¬ name_clash [].
Proof. intros (l1 & a & l2 & b & l3 & Heq & _). by destruct l1. Qed.

Lemma name_clash_cons arg args :
  name_clash (arg :: args) ↔
  (is_marker arg = false ∧ arg ≠ "" ∧ ∃ b, b ∈ args ∧ is_marker b = false)
  ∨ name_clash args.
Proof.
  split.
  - intros (l1 & a & l2 & b & l3 & Heq & Ha & Hne & Hb).
    destruct l1 as [|x l1]; simplify_eq/=.
    + left. repeat split; auto. exists b. split; [|done].
      apply elem_of_app. right. by left.
    + right. by exists l1, a, l2, b, l3.
  - intros [(Ha & Hne & b & Hin & Hb)|(l1 & a & l2 & b & l3 & -> & ?)].
    + apply list_elem_of_split in Hin as (l2 & l3 & ->).
      by exists [], arg, l2, b, l3.
    + by exists (arg :: l1), a, l2, b, l3.
Qed.

Lemma given_names_nil args :
  (¬ ∃ b, b ∈ args ∧ is_marker b = false) → given_names args = [].
Proof.
  intros Hno. unfold given_names.
  induction args as [|a args IH]; [done|].
  rewrite filter_cons_False.
  - apply IH. intros (b & ? & ?). apply Hno. exists b. split; [by right|done].
  - intros [Ha _]. apply Hno. exists a. split; [by left|done].
Qed.

Lemma methodLoop_spec args : ∀ m,
  (clash_from m args → methodLoop args m = Fatal multiple_names) ∧
  (¬ clash_from m args → methodLoop args m = Ok (hd m (given_names args))).
Proof.
  induction args as [|arg args IH]; intros m.
  { split; [|done]. intros [(_ & b & Hb & _)|Hc]; [by inversion Hb|].
    by apply name_clash_nil in Hc. }
  simpl. destruct (is_marker arg) eqn:Harg.
  - (* a marker: the state is unchanged *)
    assert (clash_from m (arg :: args) ↔ clash_from m args) as Hiff.
    { unfold clash_from. rewrite name_clash_cons. split.
      - intros [(? & b & Hb & ?)|[(? & _)|?]]; [|congruence|by right].
        left. split; [done|]. exists b. split; [|done].
        apply elem_of_cons in Hb as [->|?]; [congruence|done].
      - intros [(? & b & Hb & ?)|?]; [|by right; right].
        left. split; [done|]. exists b. split; [by right|done]. }
    unfold given_names. rewrite filter_cons_False by (rewrite Harg; by intros []).
    rewrite Hiff. apply IH.
  - destruct (decide (m ≠ "")) as [Hm|Hm].
    + (* a second name *)
      split; [done|]. intros Hno. destruct Hno. left. split; [done|].
      exists arg. split; [by left|done].
    + (* the first name, which may be empty *)
      apply dec_stable in Hm. subst m.
      assert (clash_from "" (arg :: args) ↔ clash_from arg args) as Hiff.
      { unfold clash_from. rewrite name_clash_cons. split.
        - intros [(? & _)|[(_ & ? & ?)|?]]; [done|by left|by right].
        - intros [(? & ?)|?]; [|by right; right]. right. left. done. }
      rewrite Hiff. destruct (IH arg) as [IH1 IH2]. split; [done|].
      intros Hno. rewrite (IH2 Hno). f_equal. unfold given_names.
      destruct (decide (arg = "")) as [->|Hne].
      * rewrite filter_cons_False by (by intros [_ ?]). done.
      * rewrite filter_cons_True by done. simpl.
        fold (given_names args). rewrite given_names_nil; [done|].
        intros Hb. apply Hno. by left.
Qed.

End TagGrammar.

(** ** Strings and buffers *)

Section Buffers.
Implicit Types (s t u : string) (g : generator).

Lemma app_cons_s c s t : String c s +:+ t = String c (s +:+ t).
Proof. reflexivity. Qed.

Lemma app_assoc_s s t u : (s +:+ t) +:+ u = s +:+ t +:+ u.
Proof. induction s as [|c s IH]; [done|]. by rewrite !app_cons_s, IH. Qed.

Lemma app_nil_r_s s : s +:+ "" = s.
Proof. induction s as [|c s IH]; [done|]. by rewrite app_cons_s, IH. Qed.

Lemma length_app_s s t :
  String.length (s +:+ t) = (String.length s + String.length t)%nat.
Proof.
  induction s as [|c s IH]; [done|]. rewrite app_cons_s. simpl. by rewrite IH.
Qed.

Lemma printf_emit s g : w g = to_accessors → printf s g = emit s g.
Proof. intros Hw. unfold printf, emit. by rewrite Hw. Qed.

Lemma emit_emit s t g : emit t (emit s g) = emit (s +:+ t) g.
Proof. unfold emit; simpl. by rewrite app_assoc_s. Qed.

Lemma emit_nil g : emit "" g = g.
Proof. destruct g. unfold emit; simpl. by rewrite app_nil_r_s. Qed.

Lemma printLoop_emit recv m typ field args : ∀ g,
  w g = to_accessors →
  printLoop recv m typ field args g = emit (accessorsText recv m typ field args) g.
Proof.
  unfold printLoop.
  induction args as [|arg args IH]; intros g Hw; simpl.
  - by rewrite emit_nil.
  - unfold printGetter, printSetter.
    destruct (is_getter arg); [|destruct (is_setter arg)].
    + rewrite printf_emit, IH, emit_emit by done. done.
    + rewrite printf_emit, IH, emit_emit by done. done.
    + by rewrite IH.
Qed.

Lemma qualifier_frame p g :
  w (qualifier p g).2 = w g ∧ header (qualifier p g).2 = header g ∧
  accessors (qualifier p g).2 = accessors g ∧ pkg (qualifier p g).2 = pkg g.
Proof.
  unfold qualifier. destruct (decide _); [done|].
  by destruct (pkgNames g !! Path p).
Qed.

Lemma TypeString_frame (ty : GoType) : ∀ g,
  w (TypeString ty g).2 = w g ∧ header (TypeString ty g).2 = header g ∧
  accessors (TypeString ty g).2 = accessors g ∧ pkg (TypeString ty g).2 = pkg g.
Proof.
  induction ty as [n|p n|e IH|e IH|k IHk e IHe]; intros g; simpl.
  - done.
  - pose proof (qualifier_frame p g). by destruct (qualifier p g).
  - specialize (IH g). by destruct (TypeString e g).
  - specialize (IH g). by destruct (TypeString e g).
  - specialize (IHk g). destruct (TypeString k g) as [sk g1]. simpl in *.
    specialize (IHe g1). destruct (TypeString e g1) as [se g2]. simpl in *.
    destruct IHk as (? & ? & ? & ?), IHe as (? & ? & ? & ?).
    repeat split; congruence.
Qed.

Lemma Split_from_length cur s : length (Split_from cur s) ≠ 0.
Proof.
  revert cur. induction s as [|c s IH]; intros cur; simpl; [done|].
  by destruct (decide _).
Qed.

(** [printAccessors] on a field with a tag that is not empty. *)
Lemma printAccessors_tagged f g t :
  tag f = Some t → TrimSpace t ≠ "" → w g = to_accessors →
  printAccessors f g =
    m ← methodLoop (Split (TrimSpace t)) "";
    m ← methodDefault f m;
    Ok (emit (commentText (receiver f) (name f) (TrimSpace t) +:+
              accessorsText (receiver f) m (TypeString (typ f) g).1 (name f)
                (Split (TrimSpace t)))
          (TypeString (typ f) g).2).
Proof.
  intros Ht Hne Hw. unfold printAccessors. rewrite Ht.
  rewrite decide_False by done.
  rewrite decide_False by apply Split_from_length.
  destruct (methodLoop _ _) as [m| |]; simpl; [|done..].
  unfold methodDefault.
  destruct (if decide (m = "") then _ else _) as [m'| |]; simpl; [|done..].
  pose proof (TypeString_frame (typ f) g) as (Hw' & _).
  destruct (TypeString (typ f) g) as [ty g1]; simpl in *.
  rewrite printf_emit by congruence.
  rewrite printLoop_emit by (simpl; congruence).
  by rewrite emit_emit.
Qed.

End Buffers.

(** ** The tokens of a tag and the fatal error *)

Section Names.
Implicit Types (args : list string) (f : structField) (g : generator).

Lemma clash_from_empty args : clash_from "" args ↔ name_clash args.
Proof. unfold clash_from. split; [by intros [[? _]|?]|by right]. Qed.

Lemma name_clash_names_of args : name_clash args → 2 ≤ length (names_of args).
Proof.
  intros (l1 & a & l2 & b & l3 & -> & Ha & _ & Hb). unfold names_of.
  rewrite filter_app, filter_cons_True by done.
  rewrite filter_app, filter_cons_True by done.
  rewrite length_app. simpl. rewrite length_app. simpl. lia.
Qed.

Lemma given_names_clash args : 2 ≤ length (given_names args) → name_clash args.
Proof.
  unfold given_names. induction args as [|a args IH]; simpl; [lia|].
  rewrite filter_cons. destruct (decide _) as [[Ha Hne]|Hn]; simpl; intros Hlen.
  - apply name_clash_cons. left. repeat split; [done..|].
    destruct (filter _ args) as [|b l] eqn:Hf; simpl in Hlen; [lia|].
    assert (b ∈ filter (λ a, is_marker a = false ∧ a ≠ "") args) as Hb
      by (rewrite Hf; by left).
    apply list_elem_of_filter in Hb as [[Hb _] Hin]. by exists b.
  - apply name_clash_cons. right. by apply IH.
Qed.

Lemma given_names_hd args b l : given_names args = b :: l → b ≠ "".
Proof.
  intros Hg. assert (b ∈ given_names args) as Hb by (rewrite Hg; by left).
  unfold given_names in Hb. by apply list_elem_of_filter in Hb as [[_ ?] _].
Qed.

(** The method name of a tag without a clash: the name token that is not
    empty, and the capitalized name of the field when there is none. *)
Lemma method_of_tag f args :
  ¬ name_clash args →
  (m ← methodLoop args ""; methodDefault f m) =
  match given_names args with
  | b :: _ => Ok b
  | [] => capitalize (name f)
  end.
Proof.
  intros Hno. rewrite <-clash_from_empty in Hno.
  destruct (methodLoop_spec args "") as [_ ->]; [|done]. simpl.
  unfold methodDefault. destruct (given_names args) as [|b l] eqn:Hg; simpl.
  - done.
  - apply given_names_hd in Hg. by rewrite decide_False.
Qed.

Lemma capitalize_Ok f : name f ≠ "" → ∃ m, capitalize (name f) = Ok m.
Proof. destruct (name f) as [|c r]; [done|]. by eexists. Qed.

End Names.

(** ** The scan of the declarations *)

Section Scanning.
Implicit Types (f : structField) (g : generator).

Lemma forM_app {A} (body : A → generator → result generator) (l1 l2 : list A) g :
  forM body (l1 ++ l2) g = (g' ← forM body l1 g; forM body l2 g').
Proof.
  revert g. induction l1 as [|x l1 IH]; intros g; simpl; [done|].
  destruct (body x g); simpl; [apply IH|done..].
Qed.

Lemma forM_bind {A B} (body : B → generator → result generator)
    (k : A → list B) (l : list A) g :
  forM (λ x, forM body (k x)) l g = forM body (l ≫= k) g.
Proof.
  revert g. induction l as [|x l IH]; intros g; [done|].
  rewrite bind_cons, forM_app. simpl.
  destruct (forM body (k x) g); simpl; [apply IH|done..].
Qed.

Lemma forM_fmap {A B} (body : B → generator → result generator)
    (h : A → B) (l : list A) g :
  forM (λ x, body (h x)) l g = forM body (h <$> l) g.
Proof.
  revert g. induction l as [|x l IH]; intros g; simpl; [done|].
  destruct (body (h x) g); simpl; [apply IH|done..].
Qed.

Lemma forM_ext {A} (body1 body2 : A → generator → result generator) (l : list A) g :
  (∀ x g, body1 x g = body2 x g) → forM body1 l g = forM body2 l g.
Proof.
  intros Hext. revert g. induction l as [|x l IH]; intros g; simpl; [done|].
  rewrite Hext. destruct (body2 x g); simpl; [apply IH|done..].
Qed.

Lemma scanSpec_fields tspec g :
  scanSpec tspec g = forM printAccessors (specFields tspec) g.
Proof.
  unfold scanSpec, specFields. destruct (SpecType tspec) as [fields|]; [|done].
  rewrite <-forM_bind. apply forM_ext. intros field g'. apply forM_fmap.
Qed.

Lemma scanDecl_fields decl g :
  scanDecl decl g = forM printAccessors (declFields decl) g.
Proof.
  destruct decl as [specs|]; simpl; [|done].
  rewrite <-forM_bind. apply forM_ext. intros. apply scanSpec_fields.
Qed.

(** The nested loops of [generate] call [printAccessors] on the fields
    in the order of their declaration. *)
Lemma scanFiles_allFields files g :
  scanFiles files g = forM printAccessors (allFields files) g.
Proof.
  unfold scanFiles, allFields. rewrite <-forM_bind. apply forM_ext.
  intros file g'. rewrite <-forM_bind. apply forM_ext.
  intros. apply scanDecl_fields.
Qed.

Lemma methodLoop_cases args : ∀ m,
  methodLoop args m = Fatal multiple_names ∨ ∃ m', methodLoop args m = Ok m'.
Proof.
  induction args as [|arg args IH]; intros m; simpl; [by right; eexists|].
  destruct (is_marker arg); [apply IH|].
  destruct (decide (m ≠ "")); [by left|apply IH].
Qed.

Lemma printAccessors_clash f g t :
  tag f = Some t → TrimSpace t ≠ "" → w g = to_accessors →
  name_clash (Split (TrimSpace t)) →
  printAccessors f g = Fatal multiple_names.
Proof.
  intros Ht Hne Hw Hclash. rewrite (printAccessors_tagged f g t) by done.
  apply clash_from_empty in Hclash.
  by destruct (methodLoop_spec (Split (TrimSpace t)) "") as [-> _].
Qed.

Lemma printAccessors_cases f g :
  w g = to_accessors → name f ≠ "" →
  printAccessors f g = Fatal multiple_names ∨
  ∃ g', printAccessors f g = Ok g' ∧ w g' = to_accessors.
Proof.
  intros Hw Hname. destruct (tag f) as [t|] eqn:Ht.
  2: { right. exists g. unfold printAccessors. by rewrite Ht. }
  destruct (decide (TrimSpace t = "")) as [He|Hne].
  { right. exists g. unfold printAccessors. by rewrite Ht, decide_True. }
  rewrite (printAccessors_tagged f g t) by done.
  destruct (methodLoop_cases (Split (TrimSpace t)) "") as [->|[m ->]];
    [by left|].
  right. simpl. unfold methodDefault.
  destruct (capitalize_Ok f Hname) as [m' Hm'].
  destruct (decide (m = "")); [rewrite Hm'|]; simpl; eexists; (split; [done|]);
    simpl; by destruct (TypeString_frame (typ f) g) as [-> _].
Qed.

Lemma scan_clash fields : ∀ g f t,
  w g = to_accessors → (∀ f', f' ∈ fields → name f' ≠ "") →
  f ∈ fields → tag f = Some t → TrimSpace t ≠ "" →
  name_clash (Split (TrimSpace t)) →
  forM printAccessors fields g = Fatal multiple_names.
Proof.
  induction fields as [|f0 fields IH]; intros g f t Hw Hnames Hin Ht Hne Hclash.
  { by inversion Hin. }
  simpl. destruct (printAccessors_cases f0 g) as [->|(g' & Hg' & Hw')];
    [done|apply Hnames; by left|done|].
  apply elem_of_cons in Hin as [->|Hin].
  { rewrite (printAccessors_clash f0 g t) in Hg' by done. done. }
  rewrite Hg'. simpl. eapply IH; eauto.
  intros f' Hf'. apply Hnames. by right.
Qed.

End Scanning.

(** ** The accessors of a field *)

(** The tag [get,set] on the field [Name] of type [Widget] of [User] does
    not give the methods [GetName] and [SetName]. *)
Lemma C1_get_set_not_GetName :
  ¬ ∃ g,
    printAccessors (field_of "Name" (Named app "Widget") "get,set")
      (new_generator app_pkg) = Ok g ∧
    accessors g =
      "// User.Name: get,set" +:+ LF +:+
      "func (x *User) GetName() Widget { return x.Name }" +:+ LF +:+
      "func (x *User) SetName(value Widget) { x.Name = value }" +:+ LF.
Proof.
  intros (g & Hg & Htext). vm_compute in Hg. injection Hg as <-.
  vm_compute in Htext. discriminate.
Qed.

(** [C1] For a field with the tag [get,set] (or [Get,Set]) the generator
    writes the comment with the receiver, the field and the tag, then the
    getter, a method of the pointer receiver without parameters that
    returns the field, then the setter, which takes a value of the type of
    the field and assigns it; the names of the two methods are the markers
    as they are spelled in the tag, followed by the capitalized name of
    the field. *)
Theorem C1_accessors_text (f : structField) (g : generator) (mg ms : string)
    (c : ascii) (r : string) :
  (mg = "get" ∧ ms = "set") ∨ (mg = "Get" ∧ ms = "Set") →
  tag f = Some (mg +:+ "," +:+ ms) → name f = String c r → w g = to_accessors →
  ∃ g', printAccessors f g = Ok g' ∧
    accessors g' = accessors g +:+
      ("// " +:+ receiver f +:+ "." +:+ name f +:+ ": " +:+ mg +:+ "," +:+ ms +:+ LF) +:+
      ("func (x *" +:+ receiver f +:+ ") " +:+ (mg +:+ String (upper c) r) +:+ "() " +:+
         (TypeString (typ f) g).1 +:+ " { return x." +:+ name f +:+ " }" +:+ LF) +:+
      ("func (x *" +:+ receiver f +:+ ") " +:+ (ms +:+ String (upper c) r) +:+ "(value " +:+
         (TypeString (typ f) g).1 +:+ ") { x." +:+ name f +:+ " = value }" +:+ LF) ∧
    header g' = header g.
Proof.
  intros Hm Ht Hname Hw.
  assert (TrimSpace (mg +:+ "," +:+ ms) = mg +:+ "," +:+ ms ∧
          Split (mg +:+ "," +:+ ms) = [mg; ms] ∧
          is_getter mg = true ∧ is_getter ms = false ∧ is_setter ms = true)
    as (Htrim & Hsplit & Hg1 & Hg2 & Hs2)
    by (destruct Hm as [[-> ->]|[-> ->]]; by vm_compute).
  eexists. split.
  - rewrite (printAccessors_tagged f g _ Ht);
      [|rewrite Htrim; by destruct Hm as [[-> ->]|[-> ->]]|done].
    rewrite Htrim, Hsplit. simpl.
    assert (is_marker mg = true ∧ is_marker ms = true) as [-> ->]
      by (unfold is_marker; by rewrite Hg1, Hs2, orb_true_r).
    simpl. unfold methodDefault. rewrite decide_True by done.
    rewrite Hname. simpl. reflexivity.
  - simpl. rewrite Hg1, Hg2, Hs2.
    destruct (TypeString_frame (typ f) g) as (_ & -> & -> & _).
    split; [|done]. unfold commentText, getterText, setterText.
    by rewrite Hname, !app_assoc_s, app_nil_r_s.
Qed.

Lemma C1_accessors_text_witness :
  ∃ g', printAccessors (field_of "Name" (Named app "Widget") "get,set")
          (new_generator app_pkg) = Ok g' ∧
    accessors g' = "" +:+
      ("// " +:+ "User" +:+ "." +:+ "Name" +:+ ": " +:+ "get" +:+ "," +:+ "set" +:+ LF) +:+
      ("func (x *" +:+ "User" +:+ ") " +:+ "getName" +:+ "() " +:+
         "Widget" +:+ " { return x." +:+ "Name" +:+ " }" +:+ LF) +:+
      ("func (x *" +:+ "User" +:+ ") " +:+ "setName" +:+ "(value " +:+
         "Widget" +:+ ") { x." +:+ "Name" +:+ " = value }" +:+ LF) ∧
    header g' = "".
Proof.
  apply (C1_accessors_text (field_of "Name" (Named app "Widget") "get,set")
           (new_generator app_pkg) "get" "set" "N" "ame");
    [left; split; reflexivity | reflexivity | reflexivity | reflexivity].
Defined.

Example accessors_get_set :
  accessors <$> (match printAccessors (field_of "Name" (Named app "Widget") "get,set")
                         (new_generator app_pkg) with Ok g => Some g | _ => None end) =
  Some "// User.Name: get,set
func (x *User) getName() Widget { return x.Name }
func (x *User) setName(value Widget) { x.Name = value }
".
Proof. reflexivity. Qed.

(** ** The fatal error of a tag *)

(** The tag [get,,Foo] has two tokens that are not markers, the empty one
    and [Foo]; the field is processed, and the file is written. *)
Lemma C2_empty_token_not_fatal :
  names_of (Split (TrimSpace "get,,Foo")) = [""; "Foo"] ∧
  (∃ g, printAccessors (field_of "a" (Basic "int") "get,,Foo")
          (new_generator app_pkg) = Ok g ∧
        accessors g = "// User.a: get,,Foo" +:+ LF +:+
                      "func (x *User) getFoo() int { return x.a }" +:+ LF) ∧
  ∃ src, @main (model_lib (λ _, true)) range_fwd [empty_token_pkg] = WriteFile src.
Proof.
  split; [reflexivity|]. split.
  - eexists. split; reflexivity.
  - eexists. vm_compute. reflexivity.
Qed.

(** When [scanFiles] ends with a fatal error, [main] exits with its
    message before anything is printed or written. *)
Lemma main_scan_fatal `{Lib} range p msg :
  scanFiles (Syntax p) (new_generator p) = Fatal msg →
  main range [p] = Exit "" msg.
Proof.
  intros Hscan. unfold main, generate. simpl.
  unfold new_generator in Hscan. unfold set_w. simpl. by rewrite Hscan.
Qed.

(** A tag without a clash of names is processed. *)
Lemma printAccessors_no_clash f g t :
  tag f = Some t → TrimSpace t ≠ "" → name f ≠ "" → w g = to_accessors →
  ¬ name_clash (Split (TrimSpace t)) → ∃ g', printAccessors f g = Ok g'.
Proof.
  intros Ht Hne Hname Hw Hno. rewrite (printAccessors_tagged f g t) by done.
  set (args := Split (TrimSpace t)) in *.
  pose proof (method_of_tag f args Hno) as Hm.
  destruct (capitalize_Ok f Hname) as [m' Hm'].
  destruct (methodLoop args "") as [m| |]; simpl in *.
  - rewrite Hm. destruct (given_names args); [rewrite Hm'|]; by eexists.
  - by destruct (given_names args); rewrite ?Hm' in Hm.
  - by destruct (given_names args); rewrite ?Hm' in Hm.
Qed.

(** The same three tokens in another order: with the empty token after
    the name, the field ends the run with the fatal error.  What a tag
    with an empty token beside a name does depends on the order of its
    tokens. *)
Example empty_token_after_name :
  printAccessors (field_of "a" (Basic "int") "Foo,,get") (new_generator app_pkg) =
    Fatal multiple_names ∧
  printAccessors (field_of "a" (Basic "int") ",get,Foo") (new_generator app_pkg) ≠
    Fatal multiple_names.
Proof. split; [reflexivity|discriminate]. Qed.

(** [C2] The processing of a field ends with the fatal error for every
    tag with two or more tokens that are neither markers nor empty, in
    whatever order the tokens come, and a run over a package with such a
    field exits with that error before anything is printed or a file is
    written; a field whose tag has at most one token that is not a marker
    is processed. *)
Theorem C2_fatal_two_names (f : structField) (g : generator) (t : string) :
  tag f = Some t → TrimSpace t ≠ "" → name f ≠ "" → w g = to_accessors →
  let args := Split (TrimSpace t) in
  (2 ≤ length (given_names args) →
     printAccessors f g = Fatal multiple_names ∧
     ∀ (L : Lib) range p,
       f ∈ allFields (Syntax p) → (∀ f', f' ∈ allFields (Syntax p) → name f' ≠ "") →
       main range [p] = Exit "" multiple_names) ∧
  (length (names_of args) ≤ 1 → ∃ g', printAccessors f g = Ok g').
Proof.
  intros Ht Hne Hname Hw args. split.
  - intros Hclash%given_names_clash. split.
    + by apply (printAccessors_clash f g t).
    + intros L range p Hin Hnames. apply main_scan_fatal.
      rewrite scanFiles_allFields.
      by apply (scan_clash _ (new_generator p) f t).
  - intros Hlen. apply (printAccessors_no_clash f g t); [done..|].
    intros Hclash%name_clash_names_of. fold args in Hclash. lia.
Qed.

Lemma C2_fatal_two_names_witness :
  let f := field_of "a" (Basic "int") "get,FooName,BarName" in
  let f1 := field_of "a" (Basic "int") "get,set,FooName" in
  (printAccessors f (new_generator app_pkg) = Fatal multiple_names ∧
   ∀ (L : Lib) range p,
     f ∈ allFields (Syntax p) → (∀ f', f' ∈ allFields (Syntax p) → name f' ≠ "") →
     main range [p] = Exit "" multiple_names) ∧
  ∃ g', printAccessors f1 (new_generator app_pkg) = Ok g'.
Proof.
  intros f f1. split.
  - apply (C2_fatal_two_names f (new_generator app_pkg) "get,FooName,BarName");
      [reflexivity | vm_compute; discriminate | simpl; discriminate | reflexivity |].
    vm_compute. lia.
  - apply (C2_fatal_two_names f1 (new_generator app_pkg) "get,set,FooName");
      [reflexivity | vm_compute; discriminate | simpl; discriminate | reflexivity |].
    vm_compute. lia.
Defined.

Example fatal_two_names :
  printAccessors (field_of "a" (Basic "int") "get,FooName,BarName")
    (new_generator app_pkg) = Fatal multiple_names.
Proof. reflexivity. Qed.

(** ** The names of the methods *)

(** The tag [get,] has one token that is not a marker, the empty one; the
    method is not named [get], after that token, but [getFoo], after the
    field. *)
Lemma C3_empty_name_token :
  names_of (Split (TrimSpace "get,")) = [""] ∧
  ∃ g, printAccessors (field_of "foo" (Basic "int") "get,")
         (new_generator app_pkg) = Ok g ∧
       accessors g = "// User.foo: get," +:+ LF +:+
                     "func (x *User) getFoo() int { return x.foo }" +:+ LF ∧
       accessors g ≠ "// User.foo: get," +:+ LF +:+
                     "func (x *User) get() int { return x.foo }" +:+ LF.
Proof.
  split; [reflexivity|]. eexists. split; [reflexivity|]. split; [reflexivity|].
  vm_compute. discriminate.
Qed.

(** [C3] For a tag that is processed without the fatal error, the method
    written for each marker token is named by the text of that token
    followed by the base name; the base name is the token of the tag that
    is neither a marker nor empty when there is one, and there is at most
    one; otherwise it is the name of the field, with its first character
    in upper case when it is one of [a] to [z]. *)
Theorem C3_method_names (f : structField) (g : generator) (t base : string) :
  tag f = Some t → TrimSpace t ≠ "" → w g = to_accessors →
  let args := Split (TrimSpace t) in
  ¬ name_clash args →
  match given_names args with
  | b :: _ => Ok b
  | [] => capitalize (name f)
  end = Ok base →
  printAccessors f g =
    Ok (emit (commentText (receiver f) (name f) (TrimSpace t) +:+
              accessorsText (receiver f) base (TypeString (typ f) g).1 (name f) args)
          (TypeString (typ f) g).2) ∧
  length (given_names args) ≤ 1 ∧
  (given_names args = [] →
   ∃ c r, name f = String c r ∧ base = String (upper c) r).
Proof.
  intros Ht Hne Hw args Hno Hbase. split; [|split].
  - rewrite (printAccessors_tagged f g t) by done. fold args.
    pose proof (method_of_tag f args Hno) as Hm. rewrite Hbase in Hm.
    destruct (methodLoop args "") as [m| |]; simpl in *; [|done..].
    by rewrite Hm.
  - destruct (decide (length (given_names args) ≤ 1)) as [|Hlen]; [done|].
    destruct Hno. apply given_names_clash. lia.
  - intros Hnil. rewrite Hnil in Hbase.
    destruct (name f) as [|c r]; simplify_eq/=. by exists c, r.
Qed.

Lemma C3_method_names_witness :
  let f := field_of "foo" (Basic "int") "get,Custom" in
  printAccessors f (new_generator app_pkg) =
    Ok (emit (commentText "User" "foo" "get,Custom" +:+
              accessorsText "User" "Custom" "int" "foo" ["get"; "Custom"])
          (new_generator app_pkg)) ∧
  length (given_names ["get"; "Custom"]) ≤ 1 ∧
  (given_names ["get"; "Custom"] = [] →
   ∃ c r, "foo" = String c r ∧ "Custom" = String (upper c) r).
Proof.
  apply (C3_method_names (field_of "foo" (Basic "int") "get,Custom")
           (new_generator app_pkg) "get,Custom" "Custom");
    [reflexivity | vm_compute; discriminate | reflexivity | | reflexivity].
  intros Hclash%name_clash_names_of. vm_compute in Hclash. lia.
Defined.

Example method_getCustom :
  accessors <$> (match printAccessors (field_of "foo" (Basic "int") "get,Custom")
                         (new_generator app_pkg) with Ok g => Some g | _ => None end) =
  Some "// User.foo: get,Custom
func (x *User) getCustom() int { return x.foo }
".
Proof. reflexivity. Qed.

Example method_GetFoo :
  accessors <$> (match printAccessors (field_of "foo" (Basic "int") "Get")
                         (new_generator app_pkg) with Ok g => Some g | _ => None end) =
  Some "// User.foo: Get
func (x *User) GetFoo() int { return x.foo }
".
Proof. reflexivity. Qed.

(** ** The qualifier *)

Section Qualifier.
Implicit Types (p q : Package) (g : generator) (n : string).

Lemma qualifier_own g : qualifier (Types (pkg g)) g = ("", g).
Proof. unfold qualifier. by rewrite decide_True. Qed.

Lemma qualifier_hit p g n :
  p ≠ Types (pkg g) → pkgNames g !! Path p = Some n → qualifier p g = (n, g).
Proof. intros Hp Hn. unfold qualifier. by rewrite decide_False, Hn. Qed.

Lemma qualifier_records p g :
  p ≠ Types (pkg g) →
  pkgNames (qualifier p g).2 !! Path p = Some (qualifier p g).1.
Proof.
  intros Hp. unfold qualifier. rewrite decide_False by done.
  destruct (pkgNames g !! Path p) eqn:Hn; simpl; [done|].
  by rewrite lookup_insert_eq.
Qed.

Lemma qualifier_keeps q g path n :
  pkgNames g !! path = Some n → pkgNames (qualifier q g).2 !! path = Some n.
Proof.
  intros Hn. unfold qualifier. destruct (decide _); [done|].
  destruct (pkgNames g !! Path q) eqn:Hq; simpl; [done|].
  rewrite lookup_insert_ne; [done|]. intros <-. congruence.
Qed.

Lemma qualify_all_keeps qs : ∀ g path n,
  pkgNames g !! path = Some n → pkgNames (qualify_all qs g) !! path = Some n.
Proof.
  unfold qualify_all. induction qs as [|q qs IH]; intros g path n Hn; simpl.
  - done.
  - apply IH. by apply qualifier_keeps.
Qed.

Lemma qualify_all_pkg qs : ∀ g, pkg (qualify_all qs g) = pkg g.
Proof.
  unfold qualify_all. induction qs as [|q qs IH]; intros g; simpl; [done|].
  rewrite IH. by destruct (qualifier_frame q g) as (_ & _ & _ & ->).
Qed.

(** Of two packages with the same name and different paths that a new
    registry meets, the first keeps the name and the second gets the
    name with the count 1. *)
Lemma qualifier_second_suffixed p q g :
  p ≠ Types (pkg g) → q ≠ Types (pkg g) → Path p ≠ Path q → Name p = Name q →
  pkgNames g !! Path p = None → pkgNames g !! Path q = None →
  pkgNameCounts g !! Name p = None →
  (qualifier p g).1 = Name p ∧
  (qualifier q (qualifier p g).2).1 = Name p +:+ "1".
Proof.
  intros Hp Hq Hpath Hname Hnp Hnq Hcount.
  assert (qualifier p g = (Name p,
     {| w := w g; header := header g; accessors := accessors g; pkg := pkg g;
        pkgNameCounts := <[Name p := 1]> (pkgNameCounts g);
        pkgNames := <[Path p := Name p]> (pkgNames g) |})) as ->.
  { unfold qualifier. rewrite decide_False by done. by rewrite Hnp, Hcount. }
  simpl. split; [done|]. unfold qualifier. simpl.
  rewrite decide_False by done. rewrite lookup_insert_ne by done. rewrite Hnq.
  rewrite <-Hname, lookup_insert_eq. simpl.
  assert (Itoa 1 = "1") as -> by (by vm_compute). done.
Qed.

End Qualifier.

(** [C5] Once the qualifier has recorded a name for the path of a
    package, whatever packages it is asked for afterwards, it answers
    that name for the package, and leaves the generator, with its two
    maps, as it is; and no recorded name is ever changed. *)
Theorem C5_qualifier_write_once (p : Package) (g : generator) (qs : list Package) :
  p ≠ Types (pkg g) →
  let n := (qualifier p g).1 in
  let g1 := (qualifier p g).2 in
  let g2 := qualify_all qs g1 in
  pkgNames g1 !! Path p = Some n ∧
  qualifier p g2 = (n, g2) ∧
  pkgNameCounts (qualifier p g2).2 = pkgNameCounts g2 ∧
  pkgNames (qualifier p g2).2 = pkgNames g2 ∧
  (∀ path m, pkgNames g1 !! path = Some m → pkgNames g2 !! path = Some m).
Proof.
  intros Hp n g1 g2.
  assert (pkgNames g1 !! Path p = Some n) as Hn by (by apply qualifier_records).
  assert (qualifier p g2 = (n, g2)) as Hhit.
  { apply qualifier_hit.
    - unfold g2, g1. rewrite qualify_all_pkg.
      by destruct (qualifier_frame p g) as (_ & _ & _ & ->).
    - by apply qualify_all_keeps. }
  rewrite Hhit. repeat split; auto. intros path m. apply qualify_all_keeps.
Qed.

Lemma C5_qualifier_write_once_witness :
  let n := (qualifier util_b (qualify_all [util_a] (new_generator app_pkg))).1 in
  let g1 := (qualifier util_b (qualify_all [util_a] (new_generator app_pkg))).2 in
  let g2 := qualify_all [util1_c; util_x; util_a] g1 in
  pkgNames g1 !! Path util_b = Some n ∧
  qualifier util_b g2 = (n, g2) ∧
  pkgNameCounts (qualifier util_b g2).2 = pkgNameCounts g2 ∧
  pkgNames (qualifier util_b g2).2 = pkgNames g2 ∧
  (∀ path m, pkgNames g1 !! path = Some m → pkgNames g2 !! path = Some m).
Proof.
  apply (C5_qualifier_write_once util_b
           (qualify_all [util_a] (new_generator app_pkg)) [util1_c; util_x; util_a]).
  vm_compute. discriminate.
Defined.

Example qualifier_repeat :
  let g2 := qualify_all [util_a; util_b; util1_c; util_x] (new_generator app_pkg) in
  qualifier util_b g2 = ("util1", g2) ∧ (qualifier util_x g2).1 = "util2".
Proof. by vm_compute. Qed.

(** ** The header and the import block *)

Section Header.
Context `{Lib}.
Implicit Types (g : generator) (s t : string)
  (entries : list (string * string)) (lines : list string).

Lemma printf_emitH s g : w g = to_header → printf s g = emitH s g.
Proof. intros Hw. unfold printf, emitH. by rewrite Hw. Qed.

Lemma emitH_emitH s t g : emitH t (emitH s g) = emitH (s +:+ t) g.
Proof. unfold emitH; simpl. by rewrite app_assoc_s. Qed.

Lemma emitH_nil g : emitH "" g = g.
Proof. destruct g. unfold emitH; simpl. by rewrite app_nil_r_s. Qed.

Lemma printStmts_emitH lines : ∀ g,
  w g = to_header → printStmts lines g = emitH (joined (Fprintf0 <$> lines)) g.
Proof.
  unfold printStmts. induction lines as [|l lines IH]; intros g Hw; simpl.
  - by rewrite emitH_nil.
  - by rewrite printf_emitH, IH, emitH_emitH.
Qed.

Lemma importLoop_from entries : ∀ std ext,
  foldl (λ (acc : list string * list string) (entry : string * string),
    let '(stdImports, extImports) := acc in
    let '(pkgPath, rename) := entry in
    let stmt := importStmt pkgPath rename in
    if Contains_dot pkgPath then (stdImports, (extImports ++ [stmt])%list)
    else ((stdImports ++ [stmt])%list, extImports)) (std, ext) entries =
  ((std ++ (stmtOf <$> stdEntries entries))%list,
   (ext ++ (stmtOf <$> extEntries entries))%list).
Proof.
  unfold stdEntries, extEntries.
  induction entries as [|[path n] entries IH]; intros std ext; simpl.
  - by rewrite !app_nil_r.
  - rewrite !filter_cons. simpl. destruct (Contains_dot path) eqn:Hdot.
    + rewrite IH. rewrite decide_False, decide_True by done.
      by rewrite <-app_assoc.
    + rewrite IH. rewrite decide_True, decide_False by done.
      by rewrite <-app_assoc.
Qed.

Lemma importLoop_groups entries :
  importLoop entries = (stmtOf <$> stdEntries entries, stmtOf <$> extEntries entries).
Proof. unfold importLoop. by rewrite importLoop_from. Qed.

Lemma printf_w s g : w (printf s g) = w g.
Proof. unfold printf. by destruct (w g) eqn:Hw. Qed.

Lemma printStmts_w lines : ∀ g, w (printStmts lines g) = w g.
Proof.
  unfold printStmts. induction lines as [|l lines IH]; intros g; simpl; [done|].
  by rewrite IH, printf_w.
Qed.

(** The header [generate] writes. *)
Lemma generateHeader_emitH entries g :
  generateHeader entries g =
  emitH (preamble (pkg g) +:+
         importBlock (Fprintf0 <$> sort_Strings (stmtOf <$> stdEntries entries))
                     (Fprintf0 <$> sort_Strings (stmtOf <$> extEntries entries)))
    (set_w to_header g).
Proof.
  unfold generateHeader. rewrite importLoop_groups.
  repeat first
    [ rewrite printf_emitH by (rewrite ?printf_w, ?printStmts_w; done)
    | rewrite printStmts_emitH by (rewrite ?printf_w, ?printStmts_w; done) ].
  rewrite !emitH_emitH. simpl. f_equal. unfold preamble, importBlock.
  by rewrite !app_assoc_s.
Qed.

(** There is one sorted arrangement of a list of strings. *)
Lemma sort_Strings_unique lines sorted :
  Sorted String.le sorted → sorted ≡ₚ lines → sort_Strings lines = sorted.
Proof.
  intros Hs Hp. apply (Sorted_unique String.le).
  - apply (Sorted_merge_sort String.le).
  - done.
  - unfold sort_Strings. by rewrite merge_sort_Permutation.
Qed.

Lemma sort_Strings_perm lines1 lines2 :
  lines1 ≡ₚ lines2 → sort_Strings lines1 = sort_Strings lines2.
Proof.
  intros Hp. apply sort_Strings_unique.
  - apply (Sorted_merge_sort String.le).
  - unfold sort_Strings. by rewrite merge_sort_Permutation.
Qed.

Lemma generateHeader_perm entries1 entries2 g :
  entries1 ≡ₚ entries2 → generateHeader entries1 g = generateHeader entries2 g.
Proof.
  intros Hp. rewrite !generateHeader_emitH.
  rewrite (sort_Strings_perm (stmtOf <$> stdEntries entries1)
                             (stmtOf <$> stdEntries entries2))
    by (unfold stdEntries; by rewrite Hp).
  rewrite (sort_Strings_perm (stmtOf <$> extEntries entries1)
                             (stmtOf <$> extEntries entries2))
    by (unfold extEntries; by rewrite Hp).
  done.
Qed.

Lemma generateHeader_names entries g :
  pkgNames (generateHeader entries g) = pkgNames g.
Proof. by rewrite generateHeader_emitH. Qed.

End Header.

Section ImportBlock.
Context `{Lib} `{!LibLaws}.
Implicit Types (g : generator) (s t : string)
  (entries : list (string * string)) (lines : list string).

Lemma no_percent_app s t : no_percent (s +:+ t) = no_percent s && no_percent t.
Proof.
  induction s as [|c s IH]; [done|]. rewrite app_cons_s. simpl.
  by rewrite IH, andb_assoc.
Qed.

Lemma importStmt_no_percent path n :
  no_percent path = true → no_percent n = true →
  no_percent (importStmt path n) = true.
Proof.
  intros Hpath Hn. unfold importStmt. rewrite !no_percent_app.
  rewrite (Quote_no_percent path Hpath).
  by destruct (decide (n = Base path)); rewrite ?Hn.
Qed.

Lemma Fprintf0_lines lines :
  (∀ l, l ∈ lines → no_percent l = true) → Fprintf0 <$> lines = lines.
Proof.
  induction lines as [|l lines IH]; intros Hall; [done|].
  rewrite fmap_cons, Fprintf0_plain by (apply Hall; by left).
  rewrite IH; [done|]. intros l' Hl'. apply Hall. by right.
Qed.

Lemma sort_Strings_elem lines l : l ∈ sort_Strings lines ↔ l ∈ lines.
Proof. unfold sort_Strings. by rewrite merge_sort_Permutation. Qed.

(** [C6] In the header the import block comes after the first lines.
    Its lines are those of two groups: the external group has the
    statement of every recorded path with a dot, and no other line, the
    standard group has the statement of every recorded path without a
    dot, and no other line; the lines of a group are in increasing
    order; the statement of a path has no alias exactly when the
    recorded name is the base of the path; the standard group comes
    first, and one empty line stands between the two groups. *)
Theorem C6_import_block (range : gmap string string → list (string * string))
    (g : generator) :
  range_order range →
  (∀ path n, pkgNames g !! path = Some n →
     no_percent path = true ∧ no_percent n = true ∧ n ≠ "") →
  ∃ std ext,
    header (generateHeader (range (pkgNames g)) g) =
      header g +:+ preamble (pkg g) +:+
      "import (" +:+ LF +:+ joined std +:+ LF +:+ joined ext +:+ ")" +:+ LF ∧
    Sorted String.le std ∧ Sorted String.le ext ∧
    std ≡ₚ stmtOf <$> stdEntries (map_to_list (pkgNames g)) ∧
    ext ≡ₚ stmtOf <$> extEntries (map_to_list (pkgNames g)) ∧
    (∀ path n, pkgNames g !! path = Some n →
       (if Contains_dot path then importStmt path n ∈ ext
        else importStmt path n ∈ std) ∧
       ∃ alias, importStmt path n =
                  TAB +:+ alias +:+ " " +:+ Quote path +:+ LF ∧
                (alias = "" ↔ n = Base path) ∧
                (alias ≠ "" → alias = n)).
Proof.
  intros Hrange Hnames.
  set (entries := range (pkgNames g)).
  assert (entries ≡ₚ map_to_list (pkgNames g)) as Hperm by apply Hrange.
  assert (∀ e, e ∈ entries → no_percent (stmtOf e) = true) as Hplain.
  { intros [path n] He. rewrite Hperm in He.
    apply elem_of_map_to_list in He. apply Hnames in He as (? & ? & _).
    by apply importStmt_no_percent. }
  exists (sort_Strings (stmtOf <$> stdEntries entries)),
         (sort_Strings (stmtOf <$> extEntries entries)).
  split; [|split; [|split; [|split; [|split]]]].
  - rewrite generateHeader_emitH. simpl. unfold importBlock.
    rewrite !Fprintf0_lines; [done|..].
    + intros l Hl. apply (proj1 (sort_Strings_elem _ _)) in Hl.
      apply list_elem_of_fmap in Hl as (e & -> & He).
      apply Hplain. unfold extEntries in He.
      by apply list_elem_of_filter in He as [_ ?].
    + intros l Hl. apply (proj1 (sort_Strings_elem _ _)) in Hl.
      apply list_elem_of_fmap in Hl as (e & -> & He).
      apply Hplain. unfold stdEntries in He.
      by apply list_elem_of_filter in He as [_ ?].
  - apply (Sorted_merge_sort String.le).
  - apply (Sorted_merge_sort String.le).
  - unfold sort_Strings, stdEntries. by rewrite merge_sort_Permutation, Hperm.
  - unfold sort_Strings, extEntries. by rewrite merge_sort_Permutation, Hperm.
  - intros path n Hn. split.
    + assert ((path, n) ∈ entries) as He
        by (rewrite Hperm; by apply elem_of_map_to_list).
      destruct (Contains_dot path) eqn:Hdot;
        apply (proj2 (sort_Strings_elem _ _));
        apply (list_elem_of_fmap_2' _ _ (path, n)); try done;
        apply list_elem_of_filter; by split.
    + exists (if decide (n = Base path) then "" else n).
      split; [done|]. apply Hnames in Hn as (_ & _ & Hne).
      destruct (decide (n = Base path)); split; done.
Qed.

End ImportBlock.

(** ** The library of the examples *)

Lemma model_Fprintf0_plain s : no_percent s = true → model_Fprintf0 s = s.
Proof.
  induction s as [|c s IH]; [done|]. simpl. intros [Hc Hs]%andb_true_iff.
  destruct (decide (c = "%"%char)) as [->|_]; [done|]. by rewrite IH.
Qed.

Lemma model_lib_laws valid : @LibLaws (model_lib valid).
Proof.
  split; simpl.
  - apply model_Fprintf0_plain.
  - intros s Hs. rewrite no_percent_app. simpl. by rewrite Hs.
  - intros s b e. destruct (valid s); congruence.
Qed.

Lemma range_fwd_order : range_order range_fwd.
Proof. by intros m. Qed.

Lemma range_bwd_order : range_order range_bwd.
Proof. intros m. unfold range_bwd. by rewrite reverse_Permutation. Qed.

Lemma C6_import_block_witness :
  let L := model_lib (λ _, true) in
  let g := qualify_all [util_a; util_x; util_b] (new_generator app_pkg) in
  ∃ std ext,
    header (generateHeader (range_fwd (pkgNames g)) g) =
      header g +:+ preamble (pkg g) +:+
      "import (" +:+ LF +:+ joined std +:+ LF +:+ joined ext +:+ ")" +:+ LF ∧
    Sorted String.le std ∧ Sorted String.le ext ∧
    std ≡ₚ stmtOf <$> stdEntries (map_to_list (pkgNames g)) ∧
    ext ≡ₚ stmtOf <$> extEntries (map_to_list (pkgNames g)) ∧
    (∀ path n, pkgNames g !! path = Some n →
       (if Contains_dot path then importStmt path n ∈ ext
        else importStmt path n ∈ std) ∧
       ∃ alias, importStmt path n =
                  TAB +:+ alias +:+ " " +:+ Quote path +:+ LF ∧
                (alias = "" ↔ n = Base path) ∧
                (alias ≠ "" → alias = n)).
Proof.
  intros L g.
  apply (@C6_import_block L (model_lib_laws _) range_fwd g range_fwd_order).
  intros path n Hn. apply elem_of_map_to_list in Hn. vm_compute in Hn.
  repeat (apply elem_of_cons in Hn as [Hn|Hn];
          [injection Hn as -> ->; by vm_compute|]).
  by apply not_elem_of_nil in Hn.
Defined.

Example import_block_demo :
  let L := model_lib (λ _, true) in
  let g := qualify_all [util_a; util_x; util_b] (new_generator app_pkg) in
  header (generateHeader (range_fwd (pkgNames g)) g) =
  "// Code generated by accessor; DO NOT EDIT." +:+ LF +:+ LF +:+
  "package app" +:+ LF +:+
  "import (" +:+ LF +:+
  TAB +:+ " " +:+ Quote "a/util" +:+ LF +:+
  TAB +:+ "util2 " +:+ Quote "b/util" +:+ LF +:+
  LF +:+
  TAB +:+ "util1 " +:+ Quote "github.com/x/util" +:+ LF +:+
  ")" +:+ LF.
Proof. by vm_compute. Qed.

(** ** Runs of the generator *)

Section Runs.
Context `{Lib}.
Implicit Types (g : generator) (p : Pkg)
  (range : gmap string string → list (string * string)).

Lemma generate_scanned range p :
  generate range (new_generator p) =
  (g ← forM printAccessors (allFields (Syntax p)) (new_generator p);
   Ok (generateHeader (range (pkgNames g)) g)).
Proof.
  unfold generate.
  change (set_w to_accessors (new_generator p)) with (new_generator p).
  change (Syntax (pkg (new_generator p))) with (Syntax p).
  by rewrite scanFiles_allFields.
Qed.

Lemma generate_order range1 range2 g :
  range_order range1 → range_order range2 →
  generate range1 g = generate range2 g.
Proof.
  intros H1 H2. unfold generate.
  destruct (scanFiles _ _) as [g'| |]; simpl; [|done..].
  f_equal. apply generateHeader_perm. by rewrite (H1 _), (H2 _).
Qed.

(** [C7] The outcome of a run, with the text it writes, is the same for
    any two orders in which the map of the recorded names is ranged
    over; and the text of the accessors is the one that the calls of
    [printAccessors] on the fields in the order of their declaration
    leave in the buffer. *)
Theorem C7_generation_deterministic range1 range2 (pkgs : list Pkg) :
  range_order range1 → range_order range2 →
  main range1 pkgs = main range2 pkgs ∧
  (∀ p g, generate range1 (new_generator p) = Ok g →
     ∃ g', forM printAccessors (allFields (Syntax p)) (new_generator p) = Ok g' ∧
           accessors g = accessors g').
Proof.
  intros H1 H2. split.
  - unfold main. destruct pkgs as [|p [|? ?]]; [done| |done].
    by rewrite (generate_order range1 range2).
  - intros p g. rewrite generate_scanned.
    destruct (forM _ _ _) as [g'| |]; simpl; [|done..].
    intros [= <-]. exists g'. split; [done|].
    by rewrite generateHeader_emitH.
Qed.

Lemma generate_header_nonempty range p g :
  generate range (new_generator p) = Ok g → header g ≠ "".
Proof.
  rewrite generate_scanned. destruct (forM _ _ _) as [g'| |]; simpl; [|done..].
  intros [= <-]. rewrite generateHeader_emitH. simpl. intros Hnil.
  apply (f_equal String.length) in Hnil.
  rewrite length_app_s in Hnil. unfold preamble in Hnil.
  rewrite length_app_s in Hnil. simpl in Hnil. lia.
Qed.

(** [C8] When [format.Source] returns an error for the text of the two
    buffers, the run ends with the fatal error of [format]; what has
    been printed before is the text [format.Source] returned with the
    error, which is empty, and a line feed: an empty line, and not the
    text of the two buffers. *)
Theorem C8_format_error_output `{!LibLaws} range p g (b e : string) :
  generate range (new_generator p) = Ok g →
  Source (header g +:+ accessors g) = (b, Some e) →
  format g = (LF, Fatal ("error: format: " +:+ e)) ∧
  main range [p] = Exit LF ("error: format: " +:+ e) ∧
  LF ≠ (header g +:+ accessors g) +:+ LF.
Proof.
  intros Hg Hsrc.
  assert (format g = (LF, Fatal ("error: format: " +:+ e))) as Hf.
  { unfold format. rewrite Hsrc.
    by rewrite (Source_error_nil _ _ _ Hsrc). }
  split; [done|]. split.
  - unfold main. fold (new_generator p). by rewrite Hg, Hf.
  - intros Heq. apply (generate_header_nonempty range p g Hg).
    apply (f_equal String.length) in Heq.
    rewrite !length_app_s in Heq. simpl in Heq.
    destruct (header g); [done|]. simpl in Heq. lia.
Qed.

End Runs.

Lemma C7_generation_deterministic_witness :
  let L := model_lib (λ _, true) in
  main range_fwd [imports_pkg] = main range_bwd [imports_pkg] ∧
  (∀ p g, generate range_fwd (new_generator p) = Ok g →
     ∃ g', forM printAccessors (allFields (Syntax p)) (new_generator p) = Ok g' ∧
           accessors g = accessors g').
Proof.
  intros L.
  apply (@C7_generation_deterministic L range_fwd range_bwd [imports_pkg]
           range_fwd_order range_bwd_order).
Defined.

Example run_imports_pkg :
  @main (model_lib (λ _, true)) range_bwd [imports_pkg] =
  WriteFile (
    "// Code generated by accessor; DO NOT EDIT." +:+ LF +:+ LF +:+
    "package app" +:+ LF +:+
    "import (" +:+ LF +:+
    TAB +:+ " " +:+ String "034" "a/util" +:+ String "034" LF +:+
    TAB +:+ " " +:+ String "034" "fmt" +:+ String "034" LF +:+
    LF +:+
    TAB +:+ "util1 " +:+ String "034" "github.com/x/util" +:+ String "034" LF +:+
    ")" +:+ LF +:+
    "// User.a: get" +:+ LF +:+
    "func (x *User) getA() util.T { return x.a }" +:+ LF +:+
    "// User.b: get" +:+ LF +:+
    "func (x *User) getB() util.T { return x.b }" +:+ LF +:+
    "// User.c: set,Cee" +:+ LF +:+
    "func (x *User) setCee(value util1.T) { x.c = value }" +:+ LF +:+
    "// User.d: Get" +:+ LF +:+
    "func (x *User) GetD() fmt.Stringer { return x.d }" +:+ LF).
Proof. by vm_compute. Qed.

Lemma C8_format_error_output_witness :
  @main (model_lib (λ _, false)) range_fwd [invalid_pkg] =
  Exit LF ("error: format: " +:+ "expected declaration").
Proof.
  destruct (@generate (model_lib (λ _, false)) range_fwd (new_generator invalid_pkg))
    as [g| |] eqn:Hg; [|vm_compute in Hg; discriminate..].
  apply (@C8_format_error_output (model_lib (λ _, false)) (model_lib_laws _)
           range_fwd invalid_pkg g "" "expected declaration" Hg).
  reflexivity.
Defined.

Example invalid_pkg_text :
  (λ g, header g +:+ accessors g) <$>
    (match @generate (model_lib (λ _, false)) range_fwd (new_generator invalid_pkg)
     with Ok g => Some g | _ => None end) =
  Some (
    "// Code generated by accessor; DO NOT EDIT." +:+ LF +:+ LF +:+
    "package app" +:+ LF +:+
    "import (" +:+ LF +:+ LF +:+ ")" +:+ LF +:+
    "// User.a: get,a b" +:+ LF +:+
    "func (x *User) geta b() int { return x.a }" +:+ LF).
Proof. by vm_compute. Qed.

(** ** The short names of two paths

    The counts are kept for the declared names only: a name with a count
    is not compared with the declared names of the other packages. *)

(** [C4] The qualifier gives the empty name to the package of the unit;
    but when it meets the packages [a/util] and [b/util], both named
    [util], and then the package [c/util1], named [util1], it records the
    name [util1] for [b/util] and for [c/util1]: two paths have one short
    name, in the registry and in the run of [generate] on a struct with
    fields of the three packages. *)
Theorem C4_qualifier_name_collision :
  (∀ g, qualifier (Types (pkg g)) g = ("", g)) ∧
  (let g := qualify_all [util_a; util_b; util1_c] (new_generator app_pkg) in
   pkgNames g !! "a/util" = Some "util" ∧
   pkgNames g !! "b/util" = Some "util1" ∧
   pkgNames g !! "c/util1" = Some "util1") ∧
  (∀ (L : Lib) range, ∃ g,
     generate range (new_generator collision_pkg) = Ok g ∧
     pkgNames g !! "b/util" = Some "util1" ∧
     pkgNames g !! "c/util1" = Some "util1").
Proof.
  split; [apply qualifier_own|]. split; [by vm_compute|].
  intros L range. rewrite generate_scanned.
  destruct (forM printAccessors (allFields (Syntax collision_pkg))
              (new_generator collision_pkg)) as [g| |] eqn:Hg;
    vm_compute in Hg; [|discriminate..].
  injection Hg as <-. eexists. split; [reflexivity|].
  rewrite generateHeader_names. by vm_compute.
Qed.

(* ===================================================================== *)
(** * More properties of package ei *)
(* ===================================================================== *)

#[local] Close Scope string_scope.

Section SweepCells.
Context {H E : Type} `{Interface H E}.
Implicit Types (xs arr : list E) (h : H).

Lemma length_filter_take (P : E → Prop) `{∀ x, Decision (P x)} xs i :
  length (filter P (take i xs)) ≤ i.
Proof.
  etrans; [apply length_filter|]. rewrite length_take. lia.
Qed.

(** The loop of [Sweep] from the iteration [i] on, when the array is made
    of the elements kept so far and of the cells of the slice from the
    length of these on. *)
Lemma Sweep_cells_loop h xs n : ∀ i,
  i + n = length xs →
  range_loop (Sweep_body h) (seq i n)
    (filter (λ x, Alive x h) (take i xs) ++
       drop (length (filter (λ x, Alive x h) (take i xs))) xs,
     length (filter (λ x, Alive x h) (take i xs))) =
  Some (filter (λ x, Alive x h) (take (i + n) xs) ++
          drop (length (filter (λ x, Alive x h) (take (i + n) xs))) xs,
        length (filter (λ x, Alive x h) (take (i + n) xs))).
Proof.
  induction n as [|n IH]; intros i Hn; simpl.
  { by rewrite Nat.add_0_r. }
  set (F := filter (λ x, Alive x h) (take i xs)).
  assert (length F ≤ i) as HF by apply length_filter_take.
  destruct (lookup_lt_is_Some_2 xs i) as [x Hx]; [lia|].
  assert ((F ++ drop (length F) xs) !! i = Some x) as Harr.
  { rewrite lookup_app_r by done. rewrite lookup_drop.
    by replace (length F + (i - length F)) with i by lia. }
  rewrite Harr; simpl.
  assert (take (S i) xs = take i xs ++ [x]) as Htake by (by apply take_S_r).
  replace (i + S n) with (S i + n) by lia.
  destruct (Alive x h) eqn:Hal.
  - unfold store. rewrite decide_True
      by (rewrite length_app, length_drop; lia). simpl.
    destruct (lookup_lt_is_Some_2 xs (length F)) as [y Hy]; [lia|].
    etrans; [|apply (IH (S i)); lia]. f_equal.
    rewrite Htake, filter_app, (filter_cons_True _ x), filter_nil
      by (by rewrite Hal).
    fold F. rewrite length_app. simpl.
    replace (length F + 1) with (S (length F)) by lia.
    rewrite (drop_S _ _ _ Hy).
    replace (length F) with (length F + 0) at 1 by lia.
    rewrite insert_app_r. simpl. by rewrite <-app_assoc.
  - simpl. etrans; [|apply (IH (S i)); lia]. f_equal.
    rewrite Htake, filter_app, (filter_cons_False _ x), filter_nil, app_nil_r
      by (rewrite Hal; intros []).
    done.
Qed.

(** After [Sweep] the backing array has its length of before: its first
    cells are the slice that is left, and the cells after these hold what
    they held before the call; the elements that are dropped are not
    cleared from the array. *)
Theorem Sweep_backing_array (xs : list E) (h : H) :
  ∃ ys, Sweep xs h = Some ys ∧
        Sweep_cells xs h = Some (ys ++ drop (length ys) xs, length ys) ∧
        length (ys ++ drop (length ys) xs) = length xs.
Proof.
  exists (filter (λ x, Alive x h) xs). split; [apply Sweep_filter|].
  pose proof (Sweep_cells_loop h xs (length xs) 0 eq_refl) as Hloop.
  simpl in Hloop. rewrite take_ge in Hloop by done. split; [done|].
  rewrite length_app, length_drop.
  pose proof (length_filter (λ x, Alive x h) xs). lia.
Qed.

Lemma filter_all (P : E → Prop) `{∀ x, Decision (P x)} xs :
  filter P xs = xs ↔ Forall P xs.
Proof.
  induction xs as [|x xs IH].
  - split; [constructor|done].
  - rewrite filter_cons. destruct (decide (P x)) as [HP|HP].
    + split.
      * intros [= Hf]. constructor; [done|]. by apply IH.
      * intros [_ Hall]%Forall_cons. f_equal. by apply IH.
    + split.
      * intros Hf. pose proof (length_filter P xs) as Hlen.
        rewrite Hf in Hlen. simpl in Hlen. lia.
      * by intros [? _]%Forall_cons.
Qed.

Lemma filter_none (P : E → Prop) `{∀ x, Decision (P x)} xs :
  filter P xs = [] ↔ Forall (λ x, ¬ P x) xs.
Proof.
  induction xs as [|x xs IH].
  - split; [constructor|done].
  - rewrite filter_cons. destruct (decide (P x)) as [HP|HP].
    + split; [done|]. by intros [? _]%Forall_cons.
    + rewrite IH. split; [by constructor|by intros [_ ?]%Forall_cons].
Qed.

(** A slice that [Sweep] has left is left as it is by a second [Sweep];
    [Sweep] leaves a slice as it is exactly when all its elements are
    alive, and leaves the empty slice exactly when none is. *)
Theorem Sweep_fixed_points (xs : list E) (h : H) :
  (∀ ys, Sweep xs h = Some ys → Sweep ys h = Some ys) ∧
  (Sweep xs h = Some xs ↔ Forall (λ x, Alive x h = true) xs) ∧
  (Sweep xs h = Some [] ↔ Forall (λ x, Alive x h = false) xs).
Proof.
  rewrite !Sweep_filter. split; [|split].
  - intros ys [= <-]. rewrite Sweep_filter. f_equal.
    apply filter_all, Forall_forall. by intros x [? _]%list_elem_of_filter.
  - split.
    + intros [= Hf]. apply filter_all in Hf.
      eapply Forall_impl; [done|]. intros x. apply Is_true_true.
    + intros Hall. f_equal. apply filter_all.
      eapply Forall_impl; [done|]. intros x. apply Is_true_true.
  - split.
    + intros [= Hf]. apply filter_none in Hf.
      eapply Forall_impl; [done|]. intros x Hx. simpl in Hx.
      destruct (Alive x h); [|done]. exfalso. apply Hx. exact I.
    + intros Hall. f_equal. apply filter_none.
      eapply Forall_impl; [done|]. intros x ->. intros [].
Qed.

End SweepCells.

(** ** Killing and sweeping *)

Lemma Entity_laws : InterfaceLaws heap nat.
Proof.
  split; simpl; unfold heap_set.
  - intros e h. by rewrite decide_True.
  - intros e e' h Hne. by rewrite decide_False.
Qed.

Lemma EntityAtomic_laws : InterfaceLaws aheap nat.
Proof.
  split; simpl.
  - intros e h. by rewrite decide_True.
  - intros e e' h Hne. by rewrite decide_False.
Qed.

Section KillSweep.
Context {H E : Type} `{Interface H E} `{!InterfaceLaws H E} `{EqDecision E}.
Implicit Types (xs : list E) (h : H) (e x y : E).

Lemma Sweep_Kill xs h e :
  Sweep xs (Kill e h) = Some (filter (λ x, x ≠ e ∧ Alive x h = true) xs).
Proof.
  rewrite Sweep_filter. f_equal. apply list_filter_iff. intros x.
  rewrite Is_true_true. destruct (decide (x = e)) as [->|Hne].
  - rewrite Alive_Kill. intuition congruence.
  - rewrite Alive_Kill_ne by done. intuition congruence.
Qed.

(** The calls of the callback that kills its element: the elements that
    are called are alive before, and each is called once. *)
Lemma kill_self_calls_alive xs : ∀ i h y,
  y ∈ (each_calls kill_self i xs h).1.*2 → Alive y h = true ∧ y ∈ xs.
Proof.
  induction xs as [|x xs IH]; intros i h y; simpl.
  { by intros ?%not_elem_of_nil. }
  destruct (Alive x h) eqn:Hal.
  - specialize (IH (S i) (kill_self i x h) y).
    destruct (each_calls kill_self (S i) xs (kill_self i x h)) as [calls h'].
    simpl in *. intros [->|Hy]%elem_of_cons.
    + split; [done|by left].
    + destruct (IH Hy) as [Hy1 Hy2]. split; [|by right].
      unfold kill_self in Hy1. destruct (decide (x = y)) as [->|Hne].
      * by rewrite Alive_Kill in Hy1.
      * by rewrite Alive_Kill_ne in Hy1.
  - intros Hy. destruct (IH _ _ _ Hy). split; [done|by right].
Qed.

Lemma kill_self_calls_all xs : ∀ i h y,
  y ∈ xs → Alive y h = true → y ∈ (each_calls kill_self i xs h).1.*2.
Proof.
  induction xs as [|x xs IH]; intros i h y; simpl.
  { by intros ?%not_elem_of_nil. }
  intros Hy Hal. destruct (Alive x h) eqn:Hx.
  - specialize (IH (S i) (kill_self i x h) y).
    destruct (each_calls kill_self (S i) xs (kill_self i x h)) as [calls h'].
    simpl in *. destruct (decide (y = x)) as [->|Hne]; [by left|].
    right. apply IH.
    + by apply elem_of_cons in Hy as [?|?].
    + unfold kill_self. by rewrite Alive_Kill_ne.
  - apply IH; [|done]. apply elem_of_cons in Hy as [->|?]; [congruence|done].
Qed.

Lemma kill_self_calls_NoDup xs : ∀ i h,
  NoDup (each_calls kill_self i xs h).1.*2.
Proof.
  induction xs as [|x xs IH]; intros i h; simpl; [constructor|].
  destruct (Alive x h) eqn:Hal; [|apply IH].
  pose proof (kill_self_calls_alive xs (S i) (kill_self i x h) x) as Hx.
  specialize (IH (S i) (kill_self i x h)).
  destruct (each_calls kill_self (S i) xs (kill_self i x h)) as [calls h'].
  simpl in *. constructor; [|done].
  intros Hin. destruct (Hx Hin) as [Hx1 _].
  unfold kill_self in Hx1. by rewrite Alive_Kill in Hx1.
Qed.

Lemma kill_self_store xs : ∀ i h y,
  Alive y (each_calls kill_self i xs h).2 =
  if decide (y ∈ (each_calls kill_self i xs h).1.*2) then false else Alive y h.
Proof.
  induction xs as [|x xs IH]; intros i h y; simpl.
  { done. }
  destruct (Alive x h) eqn:Hal; [|apply IH].
  pose proof (kill_self_calls_alive xs (S i) (kill_self i x h) x) as Hx.
  specialize (IH (S i) (kill_self i x h) y).
  destruct (each_calls kill_self (S i) xs (kill_self i x h)) as [calls h'].
  simpl in *. rewrite IH. unfold kill_self in *.
  destruct (decide (y = x)) as [->|Hne].
  - destruct (decide (x ∈ x :: _)) as [_|Hn]; [|destruct Hn; by left].
    destruct (decide (x ∈ calls.*2)); [done|]. apply Alive_Kill.
  - rewrite Alive_Kill_ne by done.
    destruct (decide (y ∈ calls.*2)) as [Hin|Hin];
      destruct (decide (y ∈ x :: _)) as [Hin'|Hin']; try done.
    + destruct Hin'. by right.
    + by apply elem_of_cons in Hin' as [?|?].
Qed.

(** When the callback of [SweepEach] kills the element it is called for,
    the slice that is left holds, once each, the elements that were alive
    before; all of them are dead after the call, the other entities are as
    they were, and a [Sweep] that follows leaves the empty slice. *)
Theorem SweepEach_kill_self (xs : list E) (h : H) :
  ∃ ys h', SweepEach xs kill_self h = Some (ys, h') ∧
    NoDup ys ∧
    (∀ y, y ∈ ys ↔ y ∈ xs ∧ Alive y h = true) ∧
    (∀ y, Alive y h' = if decide (y ∈ ys) then false else Alive y h) ∧
    Sweep ys h' = Some [].
Proof.
  eexists _, _. split; [apply SweepEach_each_calls|].
  split; [apply kill_self_calls_NoDup|]. split; [|split].
  - intros y. split.
    + intros Hy%kill_self_calls_alive. tauto.
    + intros [? ?]. by apply kill_self_calls_all.
  - apply kill_self_store.
  - rewrite Sweep_filter. f_equal. apply filter_none, Forall_forall.
    intros y Hy. rewrite kill_self_store, decide_True by done. intros [].
Qed.

End KillSweep.

(** An entity that has been killed is not alive, the other entities are
    as they were, and [Sweep] after [Kill] drops the killed entity, with
    the entities that were dead before, and nothing else; so it is for the
    two entity types. *)
Theorem Kill_then_Sweep :
  (∀ (xs : list nat) (h : heap) (e : nat),
     Alive e (Kill e h) = false ∧
     (∀ e', e ≠ e' → Alive e' (Kill e h) = Alive e' h) ∧
     Sweep xs (Kill e h) = Some (filter (λ x, x ≠ e ∧ Alive x h = true) xs)) ∧
  (∀ (xs : list nat) (h : aheap) (e : nat),
     Alive e (Kill e h) = false ∧
     (∀ e', e ≠ e' → Alive e' (Kill e h) = Alive e' h) ∧
     Sweep xs (Kill e h) = Some (filter (λ x, x ≠ e ∧ Alive x h = true) xs)).
Proof.
  split; intros xs h e.
  - pose proof Entity_laws. split; [apply Alive_Kill|].
    split; [intros; by apply Alive_Kill_ne|apply Sweep_Kill].
  - pose proof EntityAtomic_laws. split; [apply Alive_Kill|].
    split; [intros; by apply Alive_Kill_ne|apply Sweep_Kill].
Qed.

Lemma SweepEach_kill_self_witness :
  ∃ ys h', SweepEach [1; 2; 1; 3; 2] kill_self demo_heap = Some (ys, h') ∧
    NoDup ys ∧
    (∀ y, y ∈ ys ↔ y ∈ [1; 2; 1; 3; 2] ∧ Alive y demo_heap = true) ∧
    (∀ y, Alive y h' = if decide (y ∈ ys) then false else Alive y demo_heap) ∧
    Sweep ys h' = Some [].
Proof.
  apply (SweepEach_kill_self (InterfaceLaws0 := Entity_laws) [1; 2; 1; 3; 2] demo_heap).
Defined.

Example SweepEach_kill_self_demo :
  fst <$> SweepEach [1; 2; 1; 3; 2] kill_self demo_heap = Some [2; 3].
Proof. reflexivity. Qed.

(** ** Sweeping a map *)

Section MapProofs.
Context {H V K : Type} `{Interface H V} `{Countable K}.
Implicit Types (m : gmap K V) (h : H) (order : list K) (k : K).

Lemma living_living h o : living h (living h o) = living h o.
Proof.
  destruct o as [v|]; simpl; [|done]. by destruct (Alive v h) eqn:Hal; simpl; rewrite ?Hal.
Qed.

Lemma SweepMap_body_lookup h m k k' :
  SweepMap_body h m k !! k' = if decide (k' = k) then living h (m !! k') else m !! k'.
Proof.
  unfold SweepMap_body. destruct (decide (k' = k)) as [->|Hne].
  - destruct (m !! k) as [v|] eqn:Hk; simpl; [|by rewrite Hk].
    destruct (Alive v h); [by rewrite Hk|by rewrite lookup_delete_eq].
  - destruct (m !! k) as [v|]; [|done].
    destruct (Alive v h); [done|by rewrite lookup_delete_ne].
Qed.

Lemma SweepMap_lookup h order : ∀ m k,
  SweepMap order m h !! k = if decide (k ∈ order) then living h (m !! k) else m !! k.
Proof.
  unfold SweepMap. induction order as [|k0 order IH]; intros m k; simpl.
  { done. }
  rewrite IH, SweepMap_body_lookup.
  destruct (decide (k = k0)) as [->|Hne].
  - rewrite (decide_True (P := k0 ∈ k0 :: order)) by (by left).
    destruct (decide (k0 ∈ order)); [apply living_living|done].
  - destruct (decide (k ∈ order)) as [Hin|Hin].
    + by rewrite decide_True by (by right).
    + rewrite decide_False; [done|]. by intros [?|?]%elem_of_cons.
Qed.

Lemma key_order_elem order m k : key_order order m → k ∈ order ↔ is_Some (m !! k).
Proof.
  intros Ho. rewrite Ho, list_elem_of_fmap. split.
  - intros ([k' v] & -> & Hin). apply elem_of_map_to_list in Hin. by eexists.
  - intros [v Hv]. exists (k, v). split; [done|]. by apply elem_of_map_to_list.
Qed.

Lemma living_filter h m k :
  filter (λ kv : K * V, Alive kv.2 h) m !! k = living h (m !! k).
Proof.
  rewrite map_lookup_filter. destruct (m !! k) as [v|]; simpl; [|done].
  by destruct (Alive v h).
Qed.

Lemma SweepMap_eq_filter order m h :
  key_order order m → SweepMap order m h = filter (λ kv, Alive kv.2 h) m.
Proof.
  intros Ho. apply map_eq. intros k. rewrite SweepMap_lookup, living_filter.
  destruct (decide (k ∈ order)) as [|Hin]; [done|].
  rewrite (key_order_elem _ m) in Hin by done.
  apply eq_None_not_Some in Hin. by rewrite Hin.
Qed.

(** [SweepMap] leaves the entries of the map whose values are alive, and
    only those, with the values they had, in whatever order the keys are
    ranged over. *)
Theorem SweepMap_filter (order : list K) (m : gmap K V) (h : H) :
  key_order order m →
  SweepMap order m h = filter (λ kv, Alive kv.2 h) m ∧
  (∀ k v, SweepMap order m h !! k = Some v ↔ m !! k = Some v ∧ Alive v h = true).
Proof.
  intros Ho. rewrite SweepMap_eq_filter by done. split; [done|].
  intros k v. rewrite map_lookup_filter_Some. simpl. by rewrite Is_true_true.
Qed.

Section EachMap.
Variable pred : K → V → H → H.
Hypothesis pred_stable : ∀ k v w y, Alive y (pred k v w) = Alive y w.

Lemma run_map_calls_stable calls : ∀ w y,
  Alive y (run_map_calls pred calls w) = Alive y w.
Proof.
  unfold run_map_calls. induction calls as [|c calls IH]; intros w y; simpl.
  - done.
  - by rewrite IH, pred_stable.
Qed.



End EachMap.




End MapProofs.

Lemma demo_order_keys : key_order demo_order demo_map.
Proof. unfold key_order, demo_order. apply reverse_Permutation. Qed.

Lemma SweepMap_filter_witness :
  SweepMap demo_order demo_map demo_heap =
    filter (λ kv, Alive kv.2 demo_heap) demo_map ∧
  (∀ k v, SweepMap demo_order demo_map demo_heap !! k = Some v ↔
          demo_map !! k = Some v ∧ Alive v demo_heap = true).
Proof. apply (SweepMap_filter demo_order demo_map demo_heap demo_order_keys). Defined.

Example SweepMap_demo :
  map_to_list (SweepMap demo_order demo_map demo_heap) ≡ₚ [(20, 2); (30, 3)].
Proof. vm_compute. apply Permutation_swap || reflexivity. Qed.


(* ===================================================================== *)
(** * More properties of the accessor generator *)
(* ===================================================================== *)

#[local] Open Scope string_scope.
#[local] Open Scope nat_scope.

(** ** What the scan keeps *)

Section Growth.
Implicit Types (f : structField) (g : generator) (p : Package) (ty : GoType).

Lemma qualifier_grows p g : pkgNames g ⊆ pkgNames (qualifier p g).2.
Proof.
  apply map_subseteq_spec. intros path n. apply qualifier_keeps.
Qed.

Lemma qualifier_counts p g declared :
  count_of g declared ≤ count_of (qualifier p g).2 declared.
Proof.
  unfold qualifier, count_of. destruct (decide _); [done|].
  destruct (pkgNames g !! Path p); simpl; [done|].
  destruct (decide (declared = Name p)) as [->|Hne].
  - rewrite lookup_insert_eq. simpl. lia.
  - by rewrite lookup_insert_ne.
Qed.

Lemma TypeString_grows ty : ∀ g,
  pkgNames g ⊆ pkgNames (TypeString ty g).2 ∧
  ∀ declared, count_of g declared ≤ count_of (TypeString ty g).2 declared.
Proof.
  induction ty as [n|p n|e IH|e IH|k IHk e IHe]; intros g; simpl.
  - done.
  - pose proof (qualifier_grows p g). pose proof (qualifier_counts p g).
    by destruct (qualifier p g).
  - specialize (IH g). by destruct (TypeString e g).
  - specialize (IH g). by destruct (TypeString e g).
  - specialize (IHk g). destruct (TypeString k g) as [sk g1]. simpl in *.
    specialize (IHe g1). destruct (TypeString e g1) as [se g2]. simpl in *.
    destruct IHk as [Hk1 Hk2], IHe as [He1 He2]. split.
    + by etrans.
    + intros declared. etrans; [apply Hk2|apply He2].
Qed.

Lemma extends_refl g : extends g g.
Proof.
  repeat split; try done. exists "". by rewrite app_nil_r_s.
Qed.

Lemma extends_trans g1 g2 g3 : extends g1 g2 → extends g2 g3 → extends g1 g3.
Proof.
  intros ([t1 Ht1] & ? & ? & ? & ? & Hc1) ([t2 Ht2] & ? & ? & ? & ? & Hc2).
  repeat split; try congruence.
  - exists (t1 +:+ t2). by rewrite Ht2, Ht1, app_assoc_s.
  - by etrans.
  - intros declared. etrans; [apply Hc1|apply Hc2].
Qed.

Lemma printAccessors_extends f g g' :
  w g = to_accessors → printAccessors f g = Ok g' → extends g g'.
Proof.
  intros Hw. destruct (tag f) as [t|] eqn:Ht.
  2: { unfold printAccessors. rewrite Ht. intros [= <-]. apply extends_refl. }
  destruct (decide (TrimSpace t = "")) as [He|Hne].
  { unfold printAccessors. rewrite Ht, decide_True by done.
    intros [= <-]. apply extends_refl. }
  rewrite (printAccessors_tagged f g t) by done.
  destruct (methodLoop _ _) as [m| |]; simpl; [|done..].
  destruct (methodDefault f m) as [m'| |]; simpl; [|done..].
  intros [= <-].
  destruct (TypeString_frame (typ f) g) as (? & ? & Ha & ?).
  destruct (TypeString_grows (typ f) g) as [? ?].
  repeat split; simpl; try done. eexists. by rewrite Ha.
Qed.

Lemma scan_extends fields : ∀ g g',
  w g = to_accessors → forM printAccessors fields g = Ok g' → extends g g'.
Proof.
  induction fields as [|f fields IH]; intros g g' Hw; simpl.
  { intros [= <-]. apply extends_refl. }
  destruct (printAccessors f g) as [g1| |] eqn:Hf; simpl; [|done..].
  intros Hrest. pose proof (printAccessors_extends f g g1 Hw Hf) as Hext.
  eapply extends_trans; [done|]. apply IH; [|done].
  destruct Hext as (_ & _ & _ & Hw1 & _). congruence.
Qed.

End Growth.

(** The scan of the declarations only adds: to the text of the accessors,
    to the recorded names and to the counts; it leaves the header as it
    is, and never changes a recorded name. *)
Theorem scanFiles_extends (files : list File) (g g' : generator) :
  w g = to_accessors → scanFiles files g = Ok g' → extends g g'.
Proof.
  intros Hw. rewrite scanFiles_allFields. by apply scan_extends.
Qed.

Lemma scanFiles_extends_witness :
  match scanFiles (Syntax imports_pkg) (new_generator imports_pkg) with
  | Ok g' => extends (new_generator imports_pkg) g'
  | _ => False
  end.
Proof.
  destruct (scanFiles (Syntax imports_pkg) (new_generator imports_pkg))
    as [g'| |] eqn:Hscan; [|vm_compute in Hscan; discriminate..].
  apply (scanFiles_extends (Syntax imports_pkg) (new_generator imports_pkg) g');
    [reflexivity|exact Hscan].
Defined.

(** ** The text of a type and the registry *)

Section Render.
Implicit Types (f : structField) (g : generator) (p : Package) (ty : GoType)
  (names : gmap string string).

Lemma TypeString_records ty : ∀ g p,
  p ∈ pkgs_of ty → p ≠ Types (pkg g) →
  is_Some (pkgNames (TypeString ty g).2 !! Path p).
Proof.
  induction ty as [n|q n|e IH|e IH|k IHk e IHe]; intros g p; simpl.
  - by intros ?%not_elem_of_nil.
  - intros ->%list_elem_of_singleton Hp.
    pose proof (qualifier_records q g Hp) as Hr.
    destruct (qualifier q g) as [s g1]. by eexists.
  - intros Hin Hp. specialize (IH g p Hin Hp). by destruct (TypeString e g).
  - intros Hin Hp. specialize (IH g p Hin Hp). by destruct (TypeString e g).
  - intros Hin Hp.
    pose proof (TypeString_frame k g) as (_ & _ & _ & Hpkg).
    specialize (IHk g p). destruct (TypeString k g) as [sk g1]. simpl in *.
    pose proof (TypeString_grows e g1) as [Hsub _].
    specialize (IHe g1 p). destruct (TypeString e g1) as [se g2]. simpl in *.
    apply elem_of_app in Hin as [Hin|Hin].
    + destruct (IHk Hin Hp) as [n Hn]. exists n.
      by eapply lookup_weaken.
    + apply IHe; [done|congruence].
Qed.

Lemma TypeString_render ty : ∀ g names,
  pkgNames (TypeString ty g).2 ⊆ names →
  (TypeString ty g).1 = render names (Types (pkg g)) ty.
Proof.
  induction ty as [n|q n|e IH|e IH|k IHk e IHe]; intros g names; simpl.
  - done.
  - destruct (decide (q = Types (pkg g))) as [->|Hq].
    + by rewrite qualifier_own.
    + pose proof (qualifier_records q g Hq) as Hr.
      destruct (qualifier q g) as [s g1]. simpl in *. intros Hsub.
      by rewrite (lookup_weaken _ _ _ _ Hr Hsub).
  - specialize (IH g names). destruct (TypeString e g). simpl in *.
    intros Hsub. by rewrite IH.
  - specialize (IH g names). destruct (TypeString e g). simpl in *.
    intros Hsub. by rewrite IH.
  - pose proof (TypeString_frame k g) as (_ & _ & _ & Hpkg).
    specialize (IHk g names). destruct (TypeString k g) as [sk g1]. simpl in *.
    pose proof (TypeString_grows e g1) as [Hsub1 _].
    specialize (IHe g1 names). destruct (TypeString e g1) as [se g2]. simpl in *.
    intros Hsub. rewrite IHk, IHe, Hpkg; [done..|]. by etrans.
Qed.

End Render.

Section TypesAndImports.
Context `{Lib}.

(** The text of the type of a field with a tag, in its comment and
    accessors, is the text of the type with the names that the registry
    has at the end of [generate], those of the import block: the name
    printed before a type is the one its package is imported under; and
    every package of another unit that the type mentions is in the
    registry. *)
Theorem accessor_types_match_imports range (p : Pkg) (before after : list structField)
    (f : structField) (g1 gend : generator) :
  allFields (Syntax p) = (before ++ f :: after)%list →
  ¬ untagged f →
  forM printAccessors before (new_generator p) = Ok g1 →
  generate range (new_generator p) = Ok gend →
  (TypeString (typ f) g1).1 = render (pkgNames gend) (Types p) (typ f) ∧
  ∀ q, q ∈ pkgs_of (typ f) → q ≠ Types p → is_Some (pkgNames gend !! Path q).
Proof.
  intros Hfields Hunt Hbefore.
  rewrite generate_scanned, Hfields, forM_app, Hbefore.
  simpl. destruct (printAccessors f g1) as [g2| |] eqn:Hf; simpl; [|done..].
  destruct (forM printAccessors after g2) as [g3| |] eqn:Hafter; simpl; [|done..].
  intros [= <-]. rewrite generateHeader_names.
  pose proof (scan_extends before (new_generator p) g1 eq_refl Hbefore)
    as (_ & _ & Hp1 & Hw1 & _).
  simpl in Hp1, Hw1.
  pose proof (printAccessors_extends f g1 g2 Hw1 Hf) as (_ & _ & _ & Hw2 & _).
  pose proof (scan_extends after g2 g3 ltac:(congruence) Hafter)
    as (_ & _ & _ & _ & Hsub3 & _).
  unfold untagged in Hunt.
  destruct (tag f) as [t|] eqn:Ht; [|by destruct Hunt].
  rewrite (printAccessors_tagged f g1 t) in Hf by done.
  destruct (methodLoop _ _) as [m| |]; simpl in Hf; [|done..].
  destruct (methodDefault f m) as [m'| |]; simpl in Hf; [|done..].
  injection Hf as <-. simpl in Hsub3. split.
  - rewrite <-Hp1. by apply TypeString_render.
  - intros q Hq Hown.
    destruct (TypeString_records (typ f) g1 q Hq) as [n Hn]; [congruence|].
    exists n. by eapply lookup_weaken.
Qed.

End TypesAndImports.

Lemma accessor_types_match_imports_witness :
  let L := model_lib (λ _, true) in
  let fields := allFields (Syntax imports_pkg) in
  let f := field_of "c" (Named util_x "T") "set,Cee" in
  match forM printAccessors (take 2 fields) (new_generator imports_pkg),
        generate range_fwd (new_generator imports_pkg) with
  | Ok g1, Ok gend =>
    (TypeString (typ f) g1).1 = render (pkgNames gend) (Types imports_pkg) (typ f) ∧
    ∀ q, q ∈ pkgs_of (typ f) → q ≠ Types imports_pkg →
         is_Some (pkgNames gend !! Path q)
  | _, _ => False
  end.
Proof.
  intros L fields f.
  destruct (forM printAccessors (take 2 fields) (new_generator imports_pkg))
    as [g1| |] eqn:H1; [|vm_compute in H1; discriminate..].
  destruct (generate range_fwd (new_generator imports_pkg))
    as [gend| |] eqn:H2; [|vm_compute in H2; discriminate..].
  apply (@accessor_types_match_imports L range_fwd imports_pkg
           (take 2 fields) (drop 3 fields) f g1 gend);
    [reflexivity | vm_compute; discriminate | exact H1 | exact H2].
Defined.

Example type_text_demo :
  render {[ "a/util" := "util"; "github.com/x/util" := "util1" ]} app
    (Map (Basic "string") (Slice (Pointer (Named util_x "T")))) =
  "map[string][]*util1.T".
Proof. reflexivity. Qed.

(** ** A tag without a marker *)

Section NoMarker.
Implicit Types (f : structField) (g : generator) (args : list string).

Lemma accessorsText_no_marker recv m ty field args :
  Forall (λ a, is_marker a = false) args →
  accessorsText recv m ty field args = "".
Proof.
  induction 1 as [|a args Ha _ IH]; simpl; [done|].
  unfold is_marker in Ha. apply orb_false_iff in Ha as [-> ->]. by rewrite IH.
Qed.

(** For a tag whose tokens are not markers, only the comment is written,
    and no method; the qualifier has been asked for the type of the field
    all the same, so the packages of the type are recorded for the import
    block, which no text of the accessors refers to. *)
Theorem tag_without_marker (f : structField) (g : generator) (t : string) :
  tag f = Some t → TrimSpace t ≠ "" → w g = to_accessors → name f ≠ "" →
  ¬ name_clash (Split (TrimSpace t)) →
  Forall (λ a, is_marker a = false) (Split (TrimSpace t)) →
  printAccessors f g =
    Ok (emit (commentText (receiver f) (name f) (TrimSpace t)) (TypeString (typ f) g).2) ∧
  ∀ q, q ∈ pkgs_of (typ f) → q ≠ Types (pkg g) →
       is_Some (pkgNames (TypeString (typ f) g).2 !! Path q).
Proof.
  intros Ht Hne Hw Hname Hno Hall. split.
  - rewrite (printAccessors_tagged f g t) by done.
    pose proof (method_of_tag f _ Hno) as Hm.
    destruct (capitalize_Ok f Hname) as [m' Hm'].
    assert (∃ base, (m ← methodLoop (Split (TrimSpace t)) ""; methodDefault f m)
                    = Ok base) as [base Hbase].
    { rewrite Hm. destruct (given_names _); [rewrite Hm'|]; by eexists. }
    destruct (methodLoop _ _) as [m| |]; simpl in *; [|done..].
    rewrite Hbase. simpl.
    by rewrite accessorsText_no_marker, app_nil_r_s.
  - intros q Hq Hown. by apply TypeString_records.
Qed.

End NoMarker.

Lemma tag_without_marker_witness :
  let f := field_of "a" (Pointer (Named util_a "T")) "Foo" in
  let g := new_generator no_marker_pkg in
  printAccessors f g =
    Ok (emit (commentText (receiver f) (name f) (TrimSpace "Foo"))
          (TypeString (typ f) g).2) ∧
  ∀ q, q ∈ pkgs_of (typ f) → q ≠ Types (pkg g) →
       is_Some (pkgNames (TypeString (typ f) g).2 !! Path q).
Proof.
  intros f g.
  apply (tag_without_marker f g "Foo");
    [reflexivity | vm_compute; discriminate | reflexivity | simpl; discriminate
    | | repeat constructor].
  intros Hclash%name_clash_names_of. vm_compute in Hclash. lia.
Defined.

Example no_marker_run :
  @main (model_lib (λ _, true)) range_fwd [no_marker_pkg] =
  WriteFile (
    "// Code generated by accessor; DO NOT EDIT." +:+ LF +:+ LF +:+
    "package app" +:+ LF +:+
    "import (" +:+ LF +:+
    TAB +:+ " " +:+ String "034" "a/util" +:+ String "034" LF +:+
    LF +:+
    ")" +:+ LF +:+
    "// User.a: Foo" +:+ LF).
Proof. by vm_compute. Qed.

(** ** The short names of the registry *)

Section Digits.
Implicit Types (s d : string) (k : nat).

Lemma all_digits_app s d : all_digits (s +:+ d) = all_digits s && all_digits d.
Proof.
  induction s as [|c s IH]; [done|]. rewrite app_cons_s. simpl.
  by rewrite IH, andb_assoc.
Qed.

Lemma pretty_N_char_digit x : is_digit (pretty_N_char x) = true.
Proof. unfold pretty_N_char. by repeat case_match. Qed.

Lemma pretty_N_go_digits x : ∀ s,
  ∃ d, pretty_N_go x s = d +:+ s ∧ all_digits d = true ∧ ((0 < x)%N → d ≠ "").
Proof.
  induction (N.lt_wf_0 x) as [x _ IH]; intros s.
  destruct (decide (x = 0)%N) as [->|Hx].
  { exists "". rewrite pretty_N_go_0. split; [done|]. split; [done|lia]. }
  rewrite pretty_N_go_step by lia.
  destruct (IH (x `div` 10)%N) with (s := String (pretty_N_char (x `mod` 10)) s)
    as (d & -> & Hd & _); [apply N.div_lt; lia|].
  exists (d +:+ String (pretty_N_char (x `mod` 10)) "").
  split; [by rewrite app_assoc_s|]. split.
  - rewrite all_digits_app, Hd. simpl. by rewrite pretty_N_char_digit.
  - intros _ Hnil. apply (f_equal String.length) in Hnil.
    rewrite length_app_s in Hnil. simpl in Hnil. lia.
Qed.

Lemma Itoa_digits k : all_digits (Itoa k) = true ∧ Itoa k ≠ "".
Proof.
  unfold Itoa, pretty, pretty_nat, pretty, pretty_N.
  destruct (decide (N.of_nat k = 0)%N) as [|Hk]; [done|].
  destruct (pretty_N_go_digits (N.of_nat k) "") as (d & -> & Hd & Hne).
  rewrite app_nil_r_s. split; [done|]. apply Hne. lia.
Qed.

Lemma Itoa_inj k1 k2 : Itoa k1 = Itoa k2 → k1 = k2.
Proof. unfold Itoa. apply (inj pretty). Qed.

Lemma count_digits_inj k1 k2 : count_digits k1 = count_digits k2 → k1 = k2.
Proof.
  unfold count_digits. intros Heq.
  destruct (decide (0 < k1)), (decide (0 < k2)); try lia.
  - by apply Itoa_inj.
  - by destruct (Itoa_digits k1).
  - by destruct (Itoa_digits k2).
Qed.

Lemma count_digits_all k : all_digits (count_digits k) = true.
Proof.
  unfold count_digits. destruct (decide _); [apply Itoa_digits|done].
Qed.

Lemma suffixed_digits declared k : suffixed declared k = declared +:+ count_digits k.
Proof.
  unfold suffixed, count_digits. destruct (decide _); [done|].
  by rewrite app_nil_r_s.
Qed.

Lemma suffixed_inj declared k1 k2 :
  suffixed declared k1 = suffixed declared k2 → k1 = k2.
Proof.
  rewrite !suffixed_digits. intros Heq%(inj (String.app declared)).
  by apply count_digits_inj.
Qed.

Lemma all_digits_ends s : all_digits s = true → s ≠ "" → ends_in_digit s = true.
Proof.
  induction s as [|c s IH]; [done|]. simpl. intros [Hc Hs]%andb_true_iff _.
  destruct s as [|c' s']; [done|]. by apply IH.
Qed.

Lemma ends_in_digit_tail c s : s ≠ "" → ends_in_digit (String c s) = ends_in_digit s.
Proof. by destruct s. Qed.

(** Two names that do not end with a digit, each followed by digits, make
    the same text only when the names are the same. *)
Lemma digits_after_names s1 : ∀ s2 d1 d2,
  ends_in_digit s1 = false → ends_in_digit s2 = false →
  all_digits d1 = true → all_digits d2 = true →
  s1 +:+ d1 = s2 +:+ d2 → s1 = s2 ∧ d1 = d2.
Proof.
  assert (∀ s d d', ends_in_digit s = false → all_digits d' = true →
                    d' = s +:+ d → s = "") as Hnil.
  { intros s d d' Hs Hd' ->. destruct (decide (s = "")) as [|Hne]; [done|].
    rewrite all_digits_app in Hd'. apply andb_true_iff in Hd' as [Hd' _].
    by rewrite (all_digits_ends s Hd' Hne) in Hs. }
  induction s1 as [|c1 s1 IH]; intros s2 d1 d2 H1 H2 Hd1 Hd2 Heq.
  { change (d1 = s2 +:+ d2) in Heq.
    pose proof (Hnil s2 d2 d1 H2 Hd1 Heq) as ->. split; [done|exact Heq]. }
  destruct s2 as [|c2 s2].
  { change (String c1 s1 +:+ d1 = d2) in Heq. symmetry in Heq.
    by pose proof (Hnil _ d1 d2 H1 Hd2 Heq). }
  rewrite !app_cons_s in Heq. injection Heq as -> Heq.
  assert (∀ c s, ends_in_digit (String c s) = false → ends_in_digit s = false)
    as Htail by (intros c [|c' s'] Hs; [done|exact Hs]).
  destruct (IH s2 d1 d2) as [-> ->]; eauto.
Qed.

Lemma suffixed_inj_names d1 d2 k1 k2 :
  ends_in_digit d1 = false → ends_in_digit d2 = false →
  suffixed d1 k1 = suffixed d2 k2 → d1 = d2 ∧ k1 = k2.
Proof.
  rewrite !suffixed_digits. intros H1 H2 Heq.
  destruct (digits_after_names d1 d2 _ _ H1 H2
              (count_digits_all k1) (count_digits_all k2) Heq) as [-> Hk].
  split; [done|]. by apply count_digits_inj.
Qed.

End Digits.

Section ShortNames.
Variable declared : string → string.
Implicit Types (p q : Package) (g : generator) (qs : list Package).

Lemma indexed_names_new pk : indexed_names declared (new_generator pk).
Proof.
  exists (λ _, 0). split.
  - intros path n. simpl. by rewrite lookup_empty.
  - intros path1 path2 [n Hn]. simpl in Hn. by rewrite lookup_empty in Hn.
Qed.

Lemma indexed_names_qualifier p g :
  Name p = declared (Path p) → indexed_names declared g →
  indexed_names declared (qualifier p g).2.
Proof.
  intros Hp (idx & Hidx & Hinj). unfold qualifier.
  destruct (decide (p = Types (pkg g))) as [|Hown]; [by exists idx|].
  destruct (pkgNames g !! Path p) as [old|] eqn:Hlook; simpl; [by exists idx|].
  exists (λ path, if decide (path = Path p) then count_of g (Name p) else idx path).
  split.
  - intros path n. simpl.
    destruct (decide (path = Path p)) as [->|Hne].
    + rewrite lookup_insert_eq. intros [= <-]. rewrite <-Hp.
      unfold count_of, suffixed. simpl. rewrite lookup_insert_eq. simpl.
      split; [lia|done].
    + rewrite lookup_insert_ne by done. intros Hn.
      destruct (Hidx path n Hn) as [Hlt ->]. split; [|done].
      unfold count_of in *. simpl.
      destruct (decide (declared path = Name p)) as [Hd|Hd].
      * rewrite Hd in *. rewrite lookup_insert_eq. simpl. lia.
      * by rewrite lookup_insert_ne.
  - intros path1 path2. simpl. intros H1 H2 Hd Heq.
    destruct (decide (path1 = Path p)) as [->|Hne1],
             (decide (path2 = Path p)) as [->|Hne2]; [done| | |].
    + rewrite lookup_insert_ne in H2 by done. destruct H2 as [n2 H2].
      destruct (Hidx path2 n2 H2) as [Hlt _]. rewrite <-Hd, <-Hp in Hlt. lia.
    + rewrite lookup_insert_ne in H1 by done. destruct H1 as [n1 H1].
      destruct (Hidx path1 n1 H1) as [Hlt _]. rewrite Hd, <-Hp in Hlt. lia.
    + rewrite lookup_insert_ne in H1, H2 by done. by apply Hinj.
Qed.

Lemma indexed_names_qualify_all qs : ∀ g,
  (∀ r, r ∈ qs → Name r = declared (Path r)) →
  indexed_names declared g → indexed_names declared (qualify_all qs g).
Proof.
  unfold qualify_all. induction qs as [|q qs IH]; intros g Hd Hg; simpl; [done|].
  apply IH.
  - intros r Hr. apply Hd. by right.
  - apply indexed_names_qualifier; [|done]. apply Hd. by left.
Qed.

Lemma qualify_all_records qs : ∀ g p,
  p ∈ qs → p ≠ Types (pkg g) → is_Some (pkgNames (qualify_all qs g) !! Path p).
Proof.
  induction qs as [|q qs IH]; intros g p Hin Hp.
  { by apply not_elem_of_nil in Hin. }
  change (qualify_all (q :: qs) g) with (qualify_all qs (qualifier q g).2).
  apply elem_of_cons in Hin as [->|Hin].
  - eexists. apply qualify_all_keeps. by apply qualifier_records.
  - apply IH; [done|]. by destruct (qualifier_frame q g) as (_ & _ & _ & ->).
Qed.

(** In a run that starts with an empty registry, two packages of other
    units that have the same declared name and different paths are
    recorded under different short names. *)
Theorem same_declared_name_distinct (pk : Pkg) qs p q :
  (∀ r, r ∈ qs → Name r = declared (Path r)) →
  p ∈ qs → q ∈ qs → p ≠ Types pk → q ≠ Types pk →
  Path p ≠ Path q → Name p = Name q →
  ∃ np nq,
    pkgNames (qualify_all qs (new_generator pk)) !! Path p = Some np ∧
    pkgNames (qualify_all qs (new_generator pk)) !! Path q = Some nq ∧
    np ≠ nq.
Proof.
  intros Hd Hp Hq Hpo Hqo Hpath Hname.
  destruct (qualify_all_records qs (new_generator pk) p Hp Hpo) as [np Hnp].
  destruct (qualify_all_records qs (new_generator pk) q Hq Hqo) as [nq Hnq].
  exists np, nq. split; [done|]. split; [done|]. intros <-.
  destruct (indexed_names_qualify_all qs (new_generator pk) Hd
              (indexed_names_new pk)) as (idx & Hidx & Hinj).
  destruct (Hidx _ _ Hnp) as [_ H1], (Hidx _ _ Hnq) as [_ H2].
  assert (declared (Path p) = declared (Path q)) as Hdd
    by (by rewrite <-!Hd).
  apply Hpath, Hinj; [by eexists..|done|].
  rewrite H1, Hdd in H2. by apply suffixed_inj in H2.
Qed.

(** When no declared name ends with a digit, the packages of other units
    with different paths are all recorded under different short names. *)
Theorem short_names_distinct (pk : Pkg) qs p q :
  (∀ r, r ∈ qs → Name r = declared (Path r)) →
  (∀ r, r ∈ qs → ends_in_digit (Name r) = false) →
  p ∈ qs → q ∈ qs → p ≠ Types pk → q ≠ Types pk →
  Path p ≠ Path q →
  ∃ np nq,
    pkgNames (qualify_all qs (new_generator pk)) !! Path p = Some np ∧
    pkgNames (qualify_all qs (new_generator pk)) !! Path q = Some nq ∧
    np ≠ nq.
Proof.
  intros Hd Hdig Hp Hq Hpo Hqo Hpath.
  destruct (qualify_all_records qs (new_generator pk) p Hp Hpo) as [np Hnp].
  destruct (qualify_all_records qs (new_generator pk) q Hq Hqo) as [nq Hnq].
  exists np, nq. split; [done|]. split; [done|]. intros <-.
  destruct (indexed_names_qualify_all qs (new_generator pk) Hd
              (indexed_names_new pk)) as (idx & Hidx & Hinj).
  destruct (Hidx _ _ Hnp) as [_ H1], (Hidx _ _ Hnq) as [_ H2].
  rewrite H1 in H2.
  apply suffixed_inj_names in H2 as [Hdd Hk];
    [|rewrite <-Hd by done; by apply Hdig..].
  apply Hpath, Hinj; by eauto.
Qed.

End ShortNames.

Lemma demo_declared_names r :
  r ∈ [util_a; util_b; util_x; util1_c; util_a] → Name r = demo_declared (Path r).
Proof.
  intros Hr. repeat (apply elem_of_cons in Hr as [->|Hr]; [reflexivity|]).
  by apply not_elem_of_nil in Hr.
Qed.

Lemma same_declared_name_distinct_witness :
  ∃ np nq,
    pkgNames (qualify_all [util_a; util_b; util_x; util1_c; util_a]
                (new_generator app_pkg)) !! Path util_b = Some np ∧
    pkgNames (qualify_all [util_a; util_b; util_x; util1_c; util_a]
                (new_generator app_pkg)) !! Path util_x = Some nq ∧
    np ≠ nq.
Proof.
  apply (same_declared_name_distinct demo_declared app_pkg
           [util_a; util_b; util_x; util1_c; util_a] util_b util_x
           demo_declared_names);
    [by apply list_elem_of_In; vm_compute; auto
    |by apply list_elem_of_In; vm_compute; auto
    |discriminate | discriminate | discriminate | reflexivity].
Defined.

Lemma demo_declared_no_digit r :
  r ∈ [util_a; util_b; util_x] →
  Name r = demo_declared (Path r) ∧ ends_in_digit (Name r) = false.
Proof.
  intros Hr. repeat (apply elem_of_cons in Hr as [->|Hr]; [by split|]).
  by apply not_elem_of_nil in Hr.
Qed.

Lemma short_names_distinct_witness :
  ∃ np nq,
    pkgNames (qualify_all [util_a; util_b; util_x]
                (new_generator app_pkg)) !! Path util_a = Some np ∧
    pkgNames (qualify_all [util_a; util_b; util_x]
                (new_generator app_pkg)) !! Path util_x = Some nq ∧
    np ≠ nq.
Proof.
  apply (short_names_distinct demo_declared app_pkg [util_a; util_b; util_x]
           util_a util_x
           (λ r Hr, proj1 (demo_declared_no_digit r Hr))
           (λ r Hr, proj2 (demo_declared_no_digit r Hr)));
    [by apply list_elem_of_In; vm_compute; auto
    |by apply list_elem_of_In; vm_compute; auto
    |discriminate | discriminate | discriminate].
Defined.

(** ** The method name and the order of the tokens *)

Section TokenOrder.
Implicit Types (f : structField) (args : list string).

Lemma given_names_short args : ¬ name_clash args → length (given_names args) ≤ 1.
Proof.
  intros Hno. destruct (decide (length (given_names args) ≤ 1)) as [|Hlen]; [done|].
  destruct Hno. apply given_names_clash. lia.
Qed.

(** Two tags with the same tokens in different orders, both processed
    without the fatal error, give the same base name to their methods:
    the place of the name token among the markers does not matter. *)
Theorem method_name_token_order (f : structField) (args1 args2 : list string) :
  args1 ≡ₚ args2 → ¬ name_clash args1 → ¬ name_clash args2 →
  (m ← methodLoop args1 ""; methodDefault f m) =
  (m ← methodLoop args2 ""; methodDefault f m).
Proof.
  intros Hperm H1 H2. rewrite !method_of_tag by done.
  assert (given_names args1 ≡ₚ given_names args2) as Hg
    by (unfold given_names; by rewrite Hperm).
  pose proof (given_names_short args1 H1) as Hl1.
  pose proof (given_names_short args2 H2) as Hl2.
  destruct (given_names args1) as [|b1 [|? ?]], (given_names args2) as [|b2 [|? ?]];
    simpl in *; try lia; try done.
  - by apply Permutation_nil_cons in Hg.
  - symmetry in Hg. by apply Permutation_nil_cons in Hg.
  - by apply Permutation_singleton_inj in Hg as ->.
Qed.

(** The default of the method name is the name of the field with its
    first character changed, if at all, to one that is not a lower-case
    letter of ASCII; the rest of the name and its length are kept, and
    capitalizing twice is capitalizing once. *)
Theorem capitalize_exported (s m : string) :
  capitalize s = Ok m →
  ∃ c r, s = String c r ∧ m = String (upper c) r ∧
         ¬ (97 ≤ nat_of_ascii (upper c) ≤ 122) ∧
         capitalize m = Ok m ∧
         String.length m = String.length s.
Proof.
  destruct s as [|c r]; [done|]. intros [= <-]. exists c, r.
  assert (¬ (97 ≤ nat_of_ascii (upper c) ≤ 122) ∧ upper (upper c) = upper c)
    as [Hup Hidem].
  { destruct c as [[] [] [] [] [] [] [] []]; vm_compute; split; (lia || done). }
  repeat split; try done.
  simpl. by rewrite Hidem.
Qed.

End TokenOrder.

Lemma method_name_token_order_witness :
  let f := field_of "foo" (Basic "int") "get,Bar,set" in
  (m ← methodLoop ["get"; "Bar"; "set"] ""; methodDefault f m) =
  (m ← methodLoop ["Bar"; "set"; "get"] ""; methodDefault f m).
Proof.
  intros f.
  apply (method_name_token_order f ["get"; "Bar"; "set"] ["Bar"; "set"; "get"]).
  - apply (Permutation_cons_append ["Bar"; "set"] "get").
  - intros Hc%name_clash_names_of. vm_compute in Hc. lia.
  - intros Hc%name_clash_names_of. vm_compute in Hc. lia.
Defined.

Lemma capitalize_exported_witness :
  ∃ c r, "foo" = String c r ∧ "Foo" = String (upper c) r ∧
         ¬ (97 ≤ nat_of_ascii (upper c) ≤ 122) ∧
         capitalize "Foo" = Ok "Foo" ∧
         String.length "Foo" = String.length "foo".
Proof. apply (capitalize_exported "foo" "Foo"). reflexivity. Defined.

(** ** The outcomes of a run *)

Section Outcomes.
Context `{Lib}.
Implicit Types (p : Pkg) (g : generator)
  (range : gmap string string → list (string * string)).

Lemma scan_cases fields : ∀ g,
  w g = to_accessors → (∀ f, f ∈ fields → name f ≠ "") →
  forM printAccessors fields g = Fatal multiple_names ∨
  ∃ g', forM printAccessors fields g = Ok g'.
Proof.
  induction fields as [|f fields IH]; intros g Hw Hnames; simpl.
  { right. by eexists. }
  destruct (printAccessors_cases f g Hw) as [->|(g1 & -> & Hw1)];
    [apply Hnames; by left|by left|].
  simpl. apply IH; [done|]. intros f' Hf'. apply Hnames. by right.
Qed.

(** A run on a package in which no name of a field is empty never
    panics: it ends with the call of [os.WriteFile] on the text that
    [format.Source] returns, or with the fatal error of a tag before
    anything is printed, or with the fatal error of [format]. *)
Theorem main_outcomes range (p : Pkg) :
  (∀ f, f ∈ allFields (Syntax p) → name f ≠ "") →
  main range [p] = Exit "" multiple_names ∨
  ∃ g, generate range (new_generator p) = Ok g ∧
    ((∃ src, Source (header g +:+ accessors g) = (src, None) ∧
             main range [p] = WriteFile src) ∨
     (∃ src err, Source (header g +:+ accessors g) = (src, Some err) ∧
                 main range [p] = Exit (src +:+ LF) ("error: format: " +:+ err))).
Proof.
  intros Hnames.
  destruct (scan_cases (allFields (Syntax p)) (new_generator p) eq_refl Hnames)
    as [Hfatal|[g' Hg']].
  - left. apply main_scan_fatal. by rewrite scanFiles_allFields.
  - right. eexists. split.
    { rewrite generate_scanned, Hg'. reflexivity. }
    unfold main. fold (new_generator p). rewrite generate_scanned, Hg'. simpl.
    unfold format.
    destruct (Source _) as [src [err|]] eqn:Hsrc; [right|left]; by eauto.
Qed.

Lemma untagged_skip f g : untagged f → printAccessors f g = Ok g.
Proof.
  unfold untagged, printAccessors. destruct (tag f) as [t|]; [|done].
  intros ->. by rewrite decide_True.
Qed.

Lemma scan_untagged fields : ∀ g,
  (∀ f, f ∈ fields → untagged f) → forM printAccessors fields g = Ok g.
Proof.
  induction fields as [|f fields IH]; intros g Hall; simpl; [done|].
  rewrite untagged_skip by (apply Hall; by left). simpl.
  apply IH. intros f' Hf'. apply Hall. by right.
Qed.

(** For a package in which no field has a tag that is not blank, whatever
    its declarations are, [generate] records no package and writes no
    accessor: the text given to the formatter is the first lines and an
    import block without statements. *)
Theorem generate_untagged range (p : Pkg) :
  range_order range →
  (∀ f, f ∈ allFields (Syntax p) → untagged f) →
  ∃ g, generate range (new_generator p) = Ok g ∧
       accessors g = "" ∧ pkgNames g = ∅ ∧ pkgNameCounts g = ∅ ∧
       header g = preamble p +:+ "import (" +:+ LF +:+ LF +:+ ")" +:+ LF.
Proof.
  intros Hrange Hall. eexists. split.
  { rewrite generate_scanned, scan_untagged by done. reflexivity. }
  rewrite generateHeader_emitH. simpl.
  assert (range ∅ = []) as ->.
  { apply Permutation_nil_r. rewrite (Hrange ∅). by rewrite map_to_list_empty. }
  done.
Qed.

End Outcomes.

Lemma main_outcomes_witness :
  let L := model_lib (λ _, true) in
  main range_fwd [imports_pkg] = Exit "" multiple_names ∨
  ∃ g, generate range_fwd (new_generator imports_pkg) = Ok g ∧
    ((∃ src, Source (header g +:+ accessors g) = (src, None) ∧
             main range_fwd [imports_pkg] = WriteFile src) ∨
     (∃ src err, Source (header g +:+ accessors g) = (src, Some err) ∧
                 main range_fwd [imports_pkg] =
                   Exit (src +:+ LF) ("error: format: " +:+ err))).
Proof.
  intros L. apply (@main_outcomes L range_fwd imports_pkg).
  intros f Hf. apply list_elem_of_In in Hf. vm_compute in Hf.
  repeat (destruct Hf as [<-|Hf]; [discriminate|]). destruct Hf.
Defined.

Lemma generate_untagged_witness :
  let L := model_lib (λ _, true) in
  ∃ g, generate range_bwd (new_generator untagged_pkg) = Ok g ∧
       accessors g = "" ∧ pkgNames g = ∅ ∧ pkgNameCounts g = ∅ ∧
       header g = preamble untagged_pkg +:+ "import (" +:+ LF +:+ LF +:+ ")" +:+ LF.
Proof.
  intros L. apply (@generate_untagged L range_bwd untagged_pkg range_bwd_order).
  intros f Hf. apply list_elem_of_In in Hf. vm_compute in Hf.
  repeat (destruct Hf as [<-|Hf]; [by vm_compute|]). destruct Hf.
Defined.

(** ** The command line *)

Section CommandLineProofs.
Context `{Lib} `{Sys}.
Implicit Types (args : list string) (output buildTags : string)
  (range : gmap string string → list (string * string)).

Lemma tags_of_length buildTags : buildTags ≠ "" → length (tags_of buildTags) ≠ 0.
Proof.
  intros Hne. unfold tags_of. destruct buildTags as [|c r]; [done|].
  rewrite decide_True by (simpl; lia). apply Split_from_length.
Qed.

Lemma args_of_cons args : ∃ a rest, args_of args = a :: rest.
Proof.
  unfold args_of. destruct args as [|a rest]; simpl; by eexists _, _.
Qed.

(** With build tags, and with arguments that are not one directory, the
    command ends with the fatal error of the tags, before the packages
    are loaded: nothing is printed, and nothing is written. *)
Theorem tags_with_files_fatal range output buildTags args :
  buildTags ≠ "" →
  (length (args_of args) ≠ 1 ∨ ∃ a, args_of args = [a] ∧ Stat a = inr false) →
  main_cli range output buildTags args = Failed "" tags_with_files.
Proof.
  intros Htags%tags_of_length Hargs. unfold main_cli.
  assert (outputDir_of (tags_of buildTags) (args_of args) = Fatal tags_with_files)
    as ->; [|done].
  unfold outputDir_of. rewrite decide_True by done.
  destruct Hargs as [Hlen|(a & -> & ->)]; [|done].
  by destruct (args_of args) as [|a [|b rest]].
Qed.

Lemma Join_space_cons e elems :
  elems ≠ [] → Join_space (e :: elems) = e +:+ " " +:+ Join_space elems.
Proof. by destruct elems. Qed.

Lemma Join_space_Split_from s : ∀ cur,
  Join_space (Split_from cur s) = cur +:+ commas_to_spaces s.
Proof.
  induction s as [|c s IH]; intros cur; simpl.
  { by rewrite app_nil_r_s. }
  destruct (decide (c = ","%char)) as [->|Hc].
  - rewrite Join_space_cons, IH; [done|].
    intros Hnil. by apply (Split_from_length "" s); rewrite Hnil.
  - by rewrite IH, app_assoc_s.
Qed.

(** The build flag that the loader is given is [-tags=] followed by the
    value of the flag of the tags in which every comma is replaced by a
    space; it is [-tags=] alone without tags. *)
Theorem buildFlag_commas buildTags :
  buildFlag (tags_of buildTags) = "-tags=" +:+ commas_to_spaces buildTags.
Proof.
  unfold buildFlag, tags_of. destruct buildTags as [|c r]; [done|].
  rewrite decide_True by (simpl; lia). unfold Split.
  by rewrite Join_space_Split_from.
Qed.

(** A file is written only when the loader has found one package, no tag
    has the fatal error, [format.Source] has accepted the text of the two
    buffers, and the file system has taken the file; the file is in the
    directory that is the argument, or in the directory of the first
    argument, under the name of the flag, [accessor.go] by default, and
    it holds what [format.Source] returned. *)
Theorem main_cli_written range output buildTags args file src :
  main_cli range output buildTags args = Written file src →
  ∃ dir p g,
    outputDir_of (tags_of buildTags) (args_of args) = Ok dir ∧
    file = JoinPath dir (if decide (output = "") then "accessor.go" else output) ∧
    Load (buildFlag (tags_of buildTags)) (args_of args) = inr [p] ∧
    generate range (new_generator p) = Ok g ∧
    Source (header g +:+ accessors g) = (src, None) ∧
    WriteErr file src = None.
Proof.
  unfold main_cli.
  destruct (outputDir_of _ _) as [dir| |] eqn:Hdir; [|done..].
  destruct (Load _ _) as [err|pkgs] eqn:Hload; [done|].
  destruct pkgs as [|p [|? ?]]; [done| |done].
  unfold main. fold (new_generator p).
  destruct (generate range (new_generator p)) as [g| |] eqn:Hgen; [|done..].
  unfold format. destruct (Source _) as [src' [err|]] eqn:Hsrc; [done|].
  destruct (WriteErr _ _) eqn:Hwrite; [done|]. intros [= <- <-].
  by exists dir, p, g.
Qed.

End CommandLineProofs.

Lemma tags_with_files_fatal_witness :
  @main_cli (model_lib (λ _, true)) demo_sys range_fwd "" "integration,linux"
    ["pkg/user.go"] = Failed "" tags_with_files.
Proof.
  apply (@tags_with_files_fatal (model_lib (λ _, true)) demo_sys range_fwd ""
           "integration,linux" ["pkg/user.go"]); [discriminate|].
  right. exists "pkg/user.go". split; reflexivity.
Defined.

Example buildFlag_demo :
  buildFlag (tags_of "integration,linux") = "-tags=integration linux".
Proof. reflexivity. Qed.

Lemma main_cli_written_witness :
  ∃ dir p g,
    @outputDir_of demo_sys (tags_of "") (args_of ["pkg"]) = Ok dir ∧
    "pkg/accessor.go" =
      @JoinPath demo_sys dir (if decide ("" = "") then "accessor.go" else "") ∧
    @Load demo_sys (buildFlag (tags_of "")) (args_of ["pkg"]) = inr [p] ∧
    @generate (model_lib (λ _, true)) range_fwd (new_generator p) = Ok g ∧
    @Source (model_lib (λ _, true)) (header g +:+ accessors g) =
      (header g +:+ accessors g, None) ∧
    @WriteErr demo_sys "pkg/accessor.go" (header g +:+ accessors g) = None.
Proof.
  destruct (@generate (model_lib (λ _, true)) range_fwd (new_generator imports_pkg))
    as [g0| |] eqn:Hg; [|vm_compute in Hg; discriminate..].
  destruct (@main_cli_written (model_lib (λ _, true)) demo_sys range_fwd "" ""
              ["pkg"] "pkg/accessor.go" (header g0 +:+ accessors g0))
    as (dir & p & g & H1 & H2 & H3 & H4 & H5 & H6).
  { unfold main_cli.
    change (outputDir_of (tags_of "") (args_of ["pkg"])) with (Ok "pkg" : result string).
    change (Load (buildFlag (tags_of "")) (args_of ["pkg"]))
      with (inr [imports_pkg] : string + list Pkg).
    cbv beta iota. unfold main. fold (new_generator imports_pkg).
    rewrite Hg. reflexivity. }
  injection H3 as <-. rewrite Hg in H4. injection H4 as <-.
  exists dir, imports_pkg, g0.
  exact (conj H1 (conj H2 (conj eq_refl (conj Hg (conj H5 H6))))).
Defined.
